(** * Modular exponentiation by windows: a shallow embedding of exponentiation.py

    The Python module computes [x**exp % mod] in four ways: step by step,
    by the binary method, and by two windowed methods that share one driver
    ([pow_window]) and differ in how the exponent is cut into windows
    ([partition_window_same_width], [partition_window_clnw]).

    Python integers are unbounded, so they are [Z] here.  Python's [%] with a
    nonzero right operand is floor-modulo, which is [Z.modulo]; [&], [<<] and
    [>>] on integers are [Z.land], [Z.shiftl] and [Z.shiftr] (two's complement
    on negative numbers on both sides).  Raised exceptions are values of
    [error]; [while] loops take a bound on their number of iterations and
    answer [OutOfFuel] when it does not suffice.

    The calls of [logging.debug] change no variable, but their arguments
    are built before the call, and building the decimal string of an
    integer raises [ValueError] above the digit limit of the interpreter.
    [pow_window] prints window values, table entries and the accumulator,
    so its four calls are part of the model.  The calls in
    [partition_window_clnw] print positions, lengths and a binary string
    only (binary conversion has no limit); they are left out. *)

From Stdlib Require Import ZArith List Lia Bool String.
Import ListNotations.

Local Open Scope Z_scope.

(** ** Exceptions and the error monad *)

Inductive error : Type :=
| Exception (msg : string)      (* raise Exception("...") *)
| ZeroDivisionError             (* a % 0, a / 0 *)
| IndexError                    (* list index out of range *)
| TypeError                     (* range() of a float *)
| ValueError                    (* integer too long for a decimal string *)
| OutOfFuel.                    (* a while loop ran past its bound *)

Inductive result (A : Type) : Type :=
| Ok (a : A)
| Err (e : error).

Arguments Ok {A} a.
Arguments Err {A} e.

Definition bind {A B : Type} (c : result A) (k : A -> result B) : result B :=
  match c with
  | Ok a => k a
  | Err e => Err e
  end.

Notation "x <- c ;; k" := (bind c (fun x => k))
  (at level 61, c at next level, right associativity).
Notation "' p <- c ;; k" := (bind c (fun x => let 'p := x in k))
  (at level 61, p pattern, c at next level, right associativity).

(** ** Python primitives *)

(** [a % b] *)
Definition py_mod (a b : Z) : result Z :=
  if b =? 0 then Err ZeroDivisionError else Ok (a mod b).

(** [n.bit_length()]: the number of bits of [abs n], 0 for 0. *)
Definition bit_length (n : Z) : Z :=
  if n =? 0 then 0 else Z.log2 (Z.abs n) + 1.

(** [range(lo, hi)] as the list it enumerates; empty when [hi <= lo]. *)
Definition range (lo hi : Z) : list Z :=
  map (fun k => lo + Z.of_nat k) (seq 0 (Z.to_nat (hi - lo))).

(** [for a in xs: s = body(a, s)], stopping at the first exception. *)
Fixpoint for_each {A S : Type} (xs : list A) (body : A -> S -> result S) (s : S)
  : result S :=
  match xs with
  | [] => Ok s
  | a :: rest => s' <- body a s ;; for_each rest body s'
  end.

(** [l[i]] on a Python list: negative indices count from the end. *)
Definition getitem {A : Type} (l : list A) (i : Z) : result A :=
  let n := Z.of_nat (List.length l) in
  let j := if i <? 0 then n + i else i in
  if (0 <=? j) && (j <? n) then
    match nth_error l (Z.to_nat j) with
    | Some a => Ok a
    | None => Err IndexError
    end
  else Err IndexError.

(** [math.ceil(a / b)].  Python divides in floating point here; the quotient
    of two integers below 2^53 is rounded correctly and a bit length is far
    below that, so the ceiling is the exact one. *)
Definition ceil_div (a b : Z) : result Z :=
  if b =? 0 then Err ZeroDivisionError else Ok (- ((- a) / b)).

(** ** The baselines

    The Python parameter [mod] is written [m]: [mod] is an operator here. *)

(** [pow_step_by_step]:
<<
    y = 1
    for i in range(0, exp):
        y = (y * x) % mod
    return y
>> *)
Definition pow_step_by_step (x exp m : Z) : result Z :=
  for_each (range 0 exp) (fun _ y => py_mod (y * x) m) 1.

(** [pow_binary]: the loop
<<
    while exp != 0:
        if (exp % 2) != 0:
            y = (y * x) % mod
            exp = exp - 1
        exp = exp >> 1
        x = (x * x) % mod
    return y
>>
    over the state [(x, exp, y)]; [fuel] bounds the number of iterations. *)
Fixpoint pow_binary_loop (fuel : nat) (x exp m y : Z) {struct fuel} : result Z :=
  if negb (exp =? 0) then
    match fuel with
    | O => Err OutOfFuel
    | S fuel' =>
        '(y1, exp1) <-
          (if negb (exp mod 2 =? 0)
           then y' <- py_mod (y * x) m ;; Ok (y', exp - 1)
           else Ok (y, exp)) ;;
        let exp2 := Z.shiftr exp1 1 in
        x' <- py_mod (x * x) m ;;
        pow_binary_loop fuel' x' exp2 m y1
    end
  else Ok y.

Definition pow_binary (fuel : nat) (x exp m : Z) : result Z :=
  pow_binary_loop fuel x exp m 1.

(** ** Windows

    A window is the Python dictionary [{"value": v, "length": l}]; a
    partitioner returns the list of windows, least significant first, and
    the bit length of the biggest one. *)

Record window : Type := { value : Z; length : Z }.

Definition partition : Type := (list window * Z)%type.

(** ** The two partitioners *)

(** [partition_window_same_width]:
<<
    if window_size >= exp.bit_length():
        raise Exception("window_size is bigger than or equal to exp")
    window_partitions = [
        { "value": ((1 << window_size) - 1) & (exp >> i * window_size),
          "length": window_size }
        for i in range(0, math.ceil(exp.bit_length() / window_size)) ]
    max_window_partition_length = window_size
    return [ window_partitions, max_window_partition_length ]
>>
    The range is evaluated before the first element, so a zero [window_size]
    is a division by zero and a negative one gives an empty list (the shift
    by a negative count is never reached). *)
Definition partition_window_same_width (exp window_size : Z) : result partition :=
  if window_size >=? bit_length exp then
    Err (Exception "window_size is bigger than or equal to exp")
  else
    n <- ceil_div (bit_length exp) window_size ;;
    let window_partitions :=
      map (fun i =>
             {| value := Z.land (Z.shiftl 1 window_size - 1)
                                (Z.shiftr exp (i * window_size));
                length := window_size |})
          (range 0 n) in
    let max_window_partition_length := window_size in
    Ok (window_partitions, max_window_partition_length).

(** The zero-word scan of [partition_window_clnw]:
<<
    while not exp & 1 << position:
        position = position + 1
        length = length + 1
>>
    [fuel] iterations at most. *)
Fixpoint zero_word_scan (fuel : nat) (exp position len : Z) {struct fuel}
  : result (Z * Z) :=
  if Z.land exp (Z.shiftl 1 position) =? 0 then
    match fuel with
    | O => Err OutOfFuel
    | S fuel' => zero_word_scan fuel' exp (position + 1) (len + 1)
    end
  else Ok (position, len).

(** The nonzero-word scan:
<<
    while length < nonzero_window_size:
        position = position + 1
        length = length + 1
>> *)
Fixpoint nonzero_word_scan (fuel : nat) (nonzero_window_size position len : Z)
  {struct fuel} : result (Z * Z) :=
  if len <? nonzero_window_size then
    match fuel with
    | O => Err OutOfFuel
    | S fuel' => nonzero_word_scan fuel' nonzero_window_size (position + 1) (len + 1)
    end
  else Ok (position, len).

(** The state of the outer loop.  [length] is 0 whenever the loop test is
    evaluated (both branches end with [length = 0]), so it is not part of
    the state. *)
Record clnw_state : Type :=
  { window_partitions : list window; max_length : Z; position : Z }.

(** One pass through the body of the outer loop, from a state whose
    [position] is below the bit length. *)
Definition clnw_body (inner : nat) (exp nonzero_window_size : Z) (st : clnw_state)
  : result clnw_state :=
  if Z.land exp (Z.shiftl 1 (position st)) =? 0 then
    (* ---------- [ZW] Zero-Word ------------- *)
    '(position', len) <- zero_word_scan inner exp (position st) 0 ;;
    Ok {| window_partitions :=
            window_partitions st ++ [{| value := 0; length := len |}];
          max_length := Z.max (max_length st) len;
          position := position' |}
  else
    (* ---------- [NW] Nonzero-Word ---------- *)
    '(position', len) <- nonzero_word_scan inner nonzero_window_size (position st) 0 ;;
    let v := Z.land (Z.shiftr exp (position' - len)) (Z.shiftl 1 len - 1) in
    Ok {| window_partitions :=
            window_partitions st ++ [{| value := v; length := len |}];
          max_length := Z.max (max_length st) len;
          position := position' |}.

(** The outer loop, [while position < exp.bit_length(): ...]. *)
Fixpoint clnw_loop (fuel inner : nat) (exp nonzero_window_size : Z) (st : clnw_state)
  {struct fuel} : result clnw_state :=
  if position st <? bit_length exp then
    match fuel with
    | O => Err OutOfFuel
    | S fuel' =>
        st' <- clnw_body inner exp nonzero_window_size st ;;
        clnw_loop fuel' inner exp nonzero_window_size st'
    end
  else Ok st.

(** [partition_window_clnw]:
<<
    if nonzero_window_size > exp.bit_length():
        raise Exception("nonzero_window_size is bigger than exp")
    window_partitions = []; max_length = 0
    position = 0; length = 0
    while position < exp.bit_length(): ...
    return [window_partitions, max_length]
>>
    Every [while] loop of the function may run [fuel] iterations. *)
Definition partition_window_clnw (fuel : nat) (exp nonzero_window_size : Z)
  : result partition :=
  if nonzero_window_size >? bit_length exp then
    Err (Exception "nonzero_window_size is bigger than exp")
  else
    st <- clnw_loop fuel fuel exp nonzero_window_size
            {| window_partitions := []; max_length := 0; position := 0 |} ;;
    Ok (window_partitions st, max_length st).

(** ** The windowed driver *)

(** [[f(a) for a in xs]], stopping at the first exception. *)
Fixpoint map_result {A B : Type} (f : A -> result B) (xs : list A) : result (list B) :=
  match xs with
  | [] => Ok []
  | a :: rest => b <- f a ;; bs <- map_result f rest ;; Ok (b :: bs)
  end.

(** [[x**i % mod for i in range(0, 2**max_window_partition_length, 1)]].
    With a negative length [2**...] is a float and [range] raises. *)
Definition precomputed_powers (x m max_window_partition_length : Z) : result (list Z) :=
  if max_window_partition_length <? 0 then Err TypeError
  else map_result (fun i => py_mod (x ^ i) m)
                  (range 0 (2 ^ max_window_partition_length)).

(** The body of the loop over the windows below the top one:
<<
    for j in range(0, window_partitions[i]["length"]):
        y = (y * y) % mod
    if window_partitions[i]["value"] != 0:
        y = (y * precomputed_powers_of_x[window_partitions[i]["value"]]) % mod
>> *)
Definition pow_window_body (m : Z) (window_partitions : list window)
  (precomputed_powers_of_x : list Z) (i y : Z) : result Z :=
  wi <- getitem window_partitions i ;;
  y1 <- for_each (range 0 (length wi)) (fun _ y => py_mod (y * y) m) y ;;
  if negb (value wi =? 0) then
    p <- getitem precomputed_powers_of_x (value wi) ;;
    py_mod (y1 * p) m
  else Ok y1.

(** The greatest number of decimal digits [str], [repr] and [%d] produce
    for an integer: [sys.int_info.default_max_str_digits] of CPython 3.11
    and later.  An integer with more digits makes the conversion raise
    [ValueError]; the sign does not count. *)
Definition int_max_str_digits : Z := 4300.

(** [str(n)] and ["%d" % n] for an integer [n], as far as they matter
    here: whether they raise. *)
Definition format_int (n : Z) : result unit :=
  if Z.abs n <? 10 ^ int_max_str_digits then Ok tt else Err ValueError.

(** [str(l)] for a list of integers, and for a list of windows, each
    printed as [{'value': v, 'length': l}]. *)
Definition str_ints (l : list Z) : result unit :=
  for_each l (fun n _ => format_int n) tt.

Definition str_windows (ws : list window) : result unit :=
  for_each ws (fun w _ => u <- format_int (value w) ;; format_int (length w)) tt.

(** [pow_window]: partition, build the table, start from the entry of the
    last (most significant) window and replay the others downwards.
    [partition_window] receives [exp] and the extra arguments [*args].
<<
    window_partitions, max_window_partition_length = partition_window(exp, *args)
    logging.debug("window_partitions           : %s" % str(window_partitions))
    logging.debug("max_window_partition_length : %d" % max_window_partition_length)
    precomputed_powers_of_x = [ ... ]
    logging.debug("precomputed_powers_of_x     : " + str(precomputed_powers_of_x))
    y = precomputed_powers_of_x[window_partitions[len(window_partitions) - 1]["value"]]; logging.debug("y: %d" % y)
    for i in reversed(range(0, len(window_partitions) - 1)): ...
    return y
>> *)
Definition pow_window {Args : Type} (x exp m : Z)
  (partition_window : Z -> Args -> result partition) (args : Args) : result Z :=
  '(window_partitions, max_window_partition_length) <- partition_window exp args ;;
  u1 <- str_windows window_partitions ;;
  u2 <- format_int max_window_partition_length ;;
  precomputed_powers_of_x <- precomputed_powers x m max_window_partition_length ;;
  u3 <- str_ints precomputed_powers_of_x ;;
  let n := Z.of_nat (List.length window_partitions) in
  top <- getitem window_partitions (n - 1) ;;
  y <- getitem precomputed_powers_of_x (value top) ;;
  u4 <- format_int y ;;
  for_each (rev (range 0 (n - 1)))
           (pow_window_body m window_partitions precomputed_powers_of_x) y.

Definition pow_window_same_width (x exp m window_size : Z) : result Z :=
  pow_window x exp m partition_window_same_width window_size.

Definition pow_window_clnw (fuel : nat) (x exp m nonzero_window_size : Z) : result Z :=
  pow_window x exp m (partition_window_clnw fuel) nonzero_window_size.

(** ** Vocabulary of the specification *)

(** A call raised the exception of the partitioners' parameter check. *)
Definition raises_invalid_parameter {A : Type} (r : result A) : Prop :=
  exists msg, r = Err (Exception msg).

Definition returns_normally {A : Type} (r : result A) : Prop :=
  exists a, r = Ok a.

Definition lengths (ws : list window) : list Z := map length ws.
Definition values (ws : list window) : list Z := map value ws.

(** The sum of the lengths of the windows. *)
Definition total_length (ws : list window) : Z := fold_right Z.add 0 (lengths ws).

(** Recombination of a window sequence, least significant window first:
    each value is shifted left by the total length [offset] of the windows
    before it, and the shifted values are OR-ed, respectively added. *)
Fixpoint recombine_or (offset : Z) (ws : list window) : Z :=
  match ws with
  | [] => 0
  | w :: rest => Z.lor (Z.shiftl (value w) offset) (recombine_or (offset + length w) rest)
  end.

Fixpoint recombine_sum (offset : Z) (ws : list window) : Z :=
  match ws with
  | [] => 0
  | w :: rest => Z.shiftl (value w) offset + recombine_sum (offset + length w) rest
  end.

(** The invariant of a window in the data model: its value fits its length. *)
Definition window_ok (w : window) : Prop :=
  0 <= length w /\ 0 <= value w < 2 ^ length w.

(** No two neighbours of the sequence are both zero windows, respectively
    both nonzero windows. *)
Fixpoint no_adjacent_zero (ws : list window) : Prop :=
  match ws with
  | a :: (b :: _) as rest => ~ (value a = 0 /\ value b = 0) /\ no_adjacent_zero rest
  | _ => True
  end.

Fixpoint no_adjacent_nonzero (ws : list window) : Prop :=
  match ws with
  | a :: (b :: _) as rest => ~ (value a <> 0 /\ value b <> 0) /\ no_adjacent_nonzero rest
  | _ => True
  end.

(** The two kinds of window the scan of [partition_window_clnw] appends: a
    zero word, or a word of the constant length that starts (at its low end)
    with the set bit that opened it. *)
Definition clnw_window (d : Z) (w : window) : Prop :=
  (value w = 0 /\ 0 < length w)
  \/ (length w = d /\ Z.odd (value w) = true /\ 0 < value w < 2 ^ d).

(** The invariant of the outer loop of [partition_window_clnw], at the loop
    test: the windows so far cover exactly the bits below [position]. *)
Record clnw_inv (exp d : Z) (st : clnw_state) : Prop :=
  { inv_position : 0 <= position st < bit_length exp + d;
    inv_total : total_length (window_partitions st) = position st;
    inv_recombine :
      recombine_sum 0 (window_partitions st) = exp mod 2 ^ position st;
    inv_windows : Forall (clnw_window d) (window_partitions st);
    inv_max :
      0 <= max_length st
      /\ Forall (fun w => length w <= max_length st) (window_partitions st);
    inv_adjacent : no_adjacent_zero (window_partitions st);
    inv_last :
      forall ws' a, window_partitions st = ws' ++ [a] -> value a = 0 ->
                    Z.testbit exp (position st) = true;
    inv_nonempty : window_partitions st = [] -> position st = 0 }.

(** The windows that are neither the first nor the last of the sequence. *)
Definition interior (ws : list window) : list window := removelast (tl ws).

(** Every window value is an index of the table. *)
Definition lookups_in_range (table : list Z) (ws : list window) : Prop :=
  Forall (fun w => 0 <= value w < Z.of_nat (List.length table)) ws.

(** The table of [pow_window] when nothing raises, and the window
    [partition_window_same_width] builds for index [i]. *)
Definition power_table (x m max_len : Z) : list Z :=
  map (fun i => x ^ i mod m) (range 0 (2 ^ max_len)).

Definition same_width_window (exp window_size i : Z) : window :=
  {| value := Z.land (Z.shiftl 1 window_size - 1) (Z.shiftr exp (i * window_size));
     length := window_size |}.

(** ** The randomized tests of exponentiation_test.py

    Each test draws its inputs with [randint] and asserts that the function
    under test returns [x**exp % mod]; one round of a test is a function of
    the numbers drawn. *)

Inductive test_result : Type :=
| Passed
| AssertionError              (* assertEqual found two different values *)
| Raised (e : error).         (* the round raised before the comparison *)

(** [self.assertEqual(first, second, msg)], both arguments being evaluated
    first. *)
Definition assertEqual (first second : result Z) : test_result :=
  match first, second with
  | Err e, _ => Raised e
  | Ok _, Err e => Raised e
  | Ok a, Ok b => if a =? b then Passed else AssertionError
  end.

(** [n] is one of the values [randint(a, b)] can return. *)
Definition randint (a b n : Z) : Prop := a <= n <= b.

(** [x**exp % mod] as the tests write it, for the exponents they draw
    (non-negative, so that [x**exp] is an integer). *)
Definition expected (x exp m : Z) : result Z := py_mod (x ^ exp) m.

Definition test_pow_step_by_step (x exp m : Z) : test_result :=
  assertEqual (pow_step_by_step x exp m) (expected x exp m).

Definition test_pow_binary (fuel : nat) (x exp m : Z) : test_result :=
  assertEqual (pow_binary fuel x exp m) (expected x exp m).

Definition test_pow_window_same_width (x exp m window_size : Z) : test_result :=
  assertEqual (pow_window_same_width x exp m window_size) (expected x exp m).

Definition test_pow_window_clnw (fuel : nat) (x exp m nonzero_window_size : Z)
  : test_result :=
  assertEqual (pow_window_clnw fuel x exp m nonzero_window_size) (expected x exp m).

(** ** The documented examples, evaluated *)

Example same_width_docstring :
  partition_window_same_width 215 3
  = Ok ([ {| value := 7; length := 3 |}; {| value := 2; length := 3 |};
          {| value := 3; length := 3 |} ], 3).
Proof. vm_compute. reflexivity. Qed.

Example clnw_docstring :
  partition_window_clnw 12 3665 3
  = Ok ([ {| value := 1; length := 3 |}; {| value := 0; length := 1 |};
          {| value := 5; length := 3 |}; {| value := 0; length := 2 |};
          {| value := 7; length := 3 |} ], 3).
Proof. vm_compute. reflexivity. Qed.

Example pow_binary_7_13_2048 : pow_binary 4 7 13 2048 = Ok (7 ^ 13 mod 2048).
Proof. vm_compute. reflexivity. Qed.


(** ** Basic facts: the monad, [range], [bit_length] *)

Lemma py_mod_ok (a m : Z) : m <> 0 -> py_mod a m = Ok (a mod m).
Proof.
  intros Hm. unfold py_mod. destruct (Z.eqb_spec m 0); [contradiction | reflexivity].
Qed.

Lemma range_length (lo hi : Z) : List.length (range lo hi) = Z.to_nat (hi - lo).
Proof. unfold range. now rewrite length_map, length_seq. Qed.

Lemma range_empty (lo hi : Z) : hi <= lo -> range lo hi = [].
Proof.
  intros H. unfold range. replace (Z.to_nat (hi - lo)) with 0%nat by lia. reflexivity.
Qed.

Lemma range_snoc (n : Z) : 0 <= n -> range 0 (n + 1) = range 0 n ++ [n].
Proof.
  intros Hn. unfold range.
  replace (Z.to_nat (n + 1 - 0)) with (S (Z.to_nat (n - 0))) by lia.
  rewrite seq_S, map_app. cbn [map]. do 3 f_equal. lia.
Qed.

Lemma range_In (n i : Z) : In i (range 0 n) <-> 0 <= i < n.
Proof.
  unfold range. rewrite in_map_iff. split.
  - intros (k & <- & Hk). apply in_seq in Hk. lia.
  - intros Hi. exists (Z.to_nat i). split; [lia | apply in_seq; lia].
Qed.

Lemma range_nth_error (n i : Z) :
  0 <= i < n -> nth_error (range 0 n) (Z.to_nat i) = Some i.
Proof.
  intros Hi. unfold range. rewrite nth_error_map, nth_error_seq.
  destruct (Nat.ltb_spec (Z.to_nat i) (Z.to_nat (n - 0))); [cbn; f_equal; lia | lia].
Qed.

Lemma getitem_nth {A : Type} (l : list A) (i : Z) (a : A) :
  0 <= i -> nth_error l (Z.to_nat i) = Some a -> getitem l i = Ok a.
Proof.
  intros Hi Hn. unfold getitem.
  assert (Hlt : (Z.to_nat i < List.length l)%nat)
    by (apply nth_error_Some; congruence).
  destruct (Z.ltb_spec i 0); [lia |].
  destruct (Z.leb_spec 0 i); [| lia].
  destruct (Z.ltb_spec i (Z.of_nat (List.length l))); [| lia].
  cbn. now rewrite Hn.
Qed.

Lemma bit_length_nonneg (n : Z) : 0 <= bit_length n.
Proof.
  unfold bit_length. destruct (n =? 0); [lia |].
  pose proof (Z.log2_nonneg (Z.abs n)). lia.
Qed.

Lemma bit_length_0 : bit_length 0 = 0.
Proof. reflexivity. Qed.

Lemma bit_length_pos (n : Z) : 0 < n -> bit_length n = Z.log2 n + 1.
Proof.
  intros H. unfold bit_length. destruct (Z.eqb_spec n 0); [lia |].
  now rewrite Z.abs_eq by lia.
Qed.

(** A positive number lies between the two powers of two its bit length
    names. *)
Lemma bit_length_bounds (n : Z) :
  0 < n -> 2 ^ (bit_length n - 1) <= n < 2 ^ bit_length n.
Proof.
  intros H. rewrite bit_length_pos by assumption.
  replace (Z.log2 n + 1 - 1) with (Z.log2 n) by lia.
  replace (Z.log2 n + 1) with (Z.succ (Z.log2 n)) by lia.
  apply Z.log2_spec. assumption.
Qed.

Lemma bit_length_upper (n : Z) : 0 <= n -> n < 2 ^ bit_length n.
Proof.
  intros H. destruct (Z.eq_dec n 0) as [-> | Hn].
  - cbn. lia.
  - apply bit_length_bounds. lia.
Qed.

Lemma bit_length_le_iff (n k : Z) :
  0 <= n -> 0 <= k -> (bit_length n <= k <-> n < 2 ^ k).
Proof.
  intros Hn Hk. destruct (Z.eq_dec n 0) as [-> | Hn0].
  - rewrite bit_length_0. pose proof (Z.pow_pos_nonneg 2 k). lia.
  - rewrite bit_length_pos by lia.
    pose proof (Z.log2_lt_pow2 n k ltac:(lia)). lia.
Qed.

Lemma bit_length_ge_1 (n : Z) : 1 <= n -> 1 <= bit_length n.
Proof.
  intros H. rewrite bit_length_pos by lia. pose proof (Z.log2_nonneg n). lia.
Qed.

(** The top bit of a positive number is set, and nothing above it. *)
Lemma testbit_top (n : Z) : 0 < n -> Z.testbit n (bit_length n - 1) = true.
Proof.
  intros H. rewrite bit_length_pos by assumption.
  replace (Z.log2 n + 1 - 1) with (Z.log2 n) by lia.
  now apply Z.bit_log2.
Qed.

Lemma testbit_above (n k : Z) : 0 <= n -> bit_length n <= k -> Z.testbit n k = false.
Proof.
  intros Hn Hk. destruct (Z.eq_dec n 0) as [-> | Hn0].
  - apply Z.bits_0.
  - apply Z.bits_above_log2; [lia |]. rewrite bit_length_pos in Hk by lia. lia.
Qed.

(** [exp & 1 << position] is zero exactly when bit [position] is clear. *)
Lemma land_bit_eqb (e p : Z) :
  0 <= p -> (Z.land e (Z.shiftl 1 p) =? 0) = negb (Z.testbit e p).
Proof.
  intros Hp.
  assert (E : Z.land e (Z.shiftl 1 p) = if Z.testbit e p then 2 ^ p else 0).
  { apply Z.bits_inj'. intros k Hk. rewrite Z.land_spec, Z.shiftl_spec by assumption.
    destruct (Z.eq_dec k p) as [-> | Hkp].
    - replace (p - p) with 0 by lia. rewrite Z.bit0_odd. cbn [Z.odd].
      rewrite andb_true_r. destruct (Z.testbit e p) eqn:Eb.
      + now rewrite Z.pow2_bits_true.
      + now rewrite Z.bits_0.
    - replace (Z.testbit 1 (k - p)) with false.
      + rewrite andb_false_r. destruct (Z.testbit e p).
        * now rewrite Z.pow2_bits_false by lia.
        * now rewrite Z.bits_0.
      + destruct (Z.lt_ge_cases (k - p) 0) as [Hneg | Hpos].
        * now rewrite Z.testbit_neg_r.
        * symmetry. apply (Z.bits_above_log2 1 (k - p)); cbn; lia. }
  rewrite E. destruct (Z.testbit e p); cbn [negb].
  - pose proof (Z.pow_pos_nonneg 2 p). apply Z.eqb_neq. lia.
  - reflexivity.
Qed.

(** ** The baselines compute the power *)

Lemma pow_mod_idemp (a k m : Z) :
  m <> 0 -> 0 <= k -> (a mod m) ^ k mod m = a ^ k mod m.
Proof.
  intros Hm Hk. pattern k. apply natlike_ind; [reflexivity | | assumption].
  intros j Hj IH. rewrite !Z.pow_succ_r by assumption.
  rewrite <- Z.mul_mod_idemp_r, IH by assumption.
  rewrite Z.mul_mod_idemp_r by assumption.
  now rewrite Z.mul_mod_idemp_l.
Qed.


Lemma mul_pow_mod (y a k m : Z) :
  m <> 0 -> 0 <= k -> (y * (a mod m) ^ k) mod m = (y * a ^ k) mod m.
Proof.
  intros Hm Hk. rewrite <- (Z.mul_mod_idemp_r y ((a mod m) ^ k)) by assumption.
  rewrite pow_mod_idemp by assumption. now rewrite Z.mul_mod_idemp_r.
Qed.

Section Baselines.

Variables (x m : Z).
Hypothesis m_nonzero : m <> 0.

(** [n] rounds of [y = (y * x) % mod]. *)
Lemma multiply_rounds {A : Type} (xs : list A) (y : Z) :
  for_each xs (fun _ y => py_mod (y * x) m) y
  = Ok (match xs with
        | [] => y
        | _ => (y * x ^ Z.of_nat (List.length xs)) mod m
        end).
Proof.
  revert y. induction xs as [| a rest IH]; intros y; [reflexivity |].
  cbn [for_each]. rewrite py_mod_ok by assumption. cbn [bind]. rewrite IH.
  f_equal. destruct rest as [| b rest'].
  - cbn [List.length]. f_equal. change (Z.of_nat 1) with 1.
    now rewrite Z.pow_1_r.
  - set (k := List.length (b :: rest')).
    change (List.length (a :: b :: rest')) with (S k).
    rewrite Nat2Z.inj_succ, Z.pow_succ_r by lia.
    rewrite Z.mul_mod_idemp_l by assumption. f_equal. ring.
Qed.

(** [n] rounds of [y = (y * y) % mod]. *)
Lemma square_rounds {A : Type} (xs : list A) (y : Z) :
  for_each xs (fun _ y => py_mod (y * y) m) y
  = Ok (match xs with
        | [] => y
        | _ => (y ^ (2 ^ Z.of_nat (List.length xs))) mod m
        end).
Proof.
  revert y. induction xs as [| a rest IH]; intros y; [reflexivity |].
  cbn [for_each]. rewrite py_mod_ok by assumption. cbn [bind]. rewrite IH.
  f_equal. destruct rest as [| b rest'].
  - cbn [List.length]. f_equal. change (2 ^ Z.of_nat 1) with 2. ring.
  - set (k := List.length (b :: rest')).
    change (List.length (a :: b :: rest')) with (S k).
    rewrite Nat2Z.inj_succ, Z.pow_succ_r by lia.
    rewrite Z.pow_mul_r by lia.
    rewrite pow_mod_idemp by (assumption || (try apply Z.pow_nonneg; lia)).
    f_equal. f_equal. ring.
Qed.

Lemma pow_step_by_step_spec (exp : Z) :
  0 <= exp ->
  pow_step_by_step x exp m = Ok (if exp =? 0 then 1 else x ^ exp mod m).
Proof.
  intros He. unfold pow_step_by_step. rewrite multiply_rounds.
  pose proof (range_length 0 exp) as Hl.
  destruct (Z.eqb_spec exp 0) as [-> | Hne].
  - reflexivity.
  - destruct (range 0 exp) as [| a rest] eqn:E.
    + cbn in Hl. lia.
    + rewrite Hl. do 2 f_equal. replace (Z.of_nat (Z.to_nat (exp - 0))) with exp by lia.
      ring.
Qed.

(** The loop of [pow_binary], from any state: as many iterations as [exp]
    has bits suffice, and the accumulator is multiplied by the power. *)
Lemma pow_binary_loop_spec (fuel : nat) :
  forall b exp y, 0 <= exp -> exp < 2 ^ Z.of_nat fuel ->
    pow_binary_loop fuel b exp m y
    = Ok (if exp =? 0 then y else (y * b ^ exp) mod m).
Proof.
  induction fuel as [| fuel IH]; intros b exp y He Hlt.
  - cbn in Hlt. assert (exp = 0) by lia. subst exp. reflexivity.
  - cbn [pow_binary_loop].
    destruct (Z.eqb_spec exp 0) as [-> | Hne]; [reflexivity |]. cbn [negb].
    rewrite Nat2Z.inj_succ, Z.pow_succ_r in Hlt by lia.
    pose proof (Z.div_mod exp 2 ltac:(lia)) as Hdm.
    pose proof (Z.mod_pos_bound exp 2 ltac:(lia)) as Hmb.
    destruct (Z.eqb_spec (exp mod 2) 0) as [Hev | Hodd]; cbn [negb].
    + (* even: only square *)
      cbn [bind]. rewrite py_mod_ok by assumption. cbn [bind].
      rewrite Z.shiftr_div_pow2, Z.pow_1_r by lia.
      rewrite IH by lia.
      destruct (Z.eqb_spec (exp / 2) 0) as [Hz | Hnz]; [lia |].
      f_equal. rewrite mul_pow_mod by (assumption || lia).
      f_equal. f_equal.
      replace exp with (2 * (exp / 2)) at 2 by lia.
      rewrite Z.pow_mul_r by lia. f_equal. ring.
    + (* odd: multiply, then square *)
      rewrite py_mod_ok by assumption. cbn [bind].
      rewrite py_mod_ok by assumption. cbn [bind].
      rewrite Z.shiftr_div_pow2, Z.pow_1_r by lia.
      assert (Hhalf : (exp - 1) / 2 = exp / 2)
        by (clear - Hodd; Z.div_mod_to_equations; lia).
      rewrite Hhalf, IH by lia.
      assert (Hx : b ^ exp = b * (b * b) ^ (exp / 2)).
      { replace exp with (2 * (exp / 2) + 1) at 1 by lia.
        rewrite Z.pow_add_r, Z.pow_mul_r, Z.pow_1_r by lia.
        replace (b ^ 2) with (b * b) by ring. ring. }
      destruct (Z.eqb_spec (exp / 2) 0) as [Hz | Hnz].
      * f_equal. rewrite Hx, Hz, Z.pow_0_r. f_equal. ring.
      * f_equal. rewrite Hx.
        rewrite mul_pow_mod by (assumption || lia).
        rewrite Z.mul_mod_idemp_l by assumption.
        f_equal. ring.
Qed.

Lemma pow_binary_spec (fuel : nat) (exp : Z) :
  0 <= exp -> bit_length exp <= Z.of_nat fuel ->
  pow_binary fuel x exp m = Ok (if exp =? 0 then 1 else x ^ exp mod m).
Proof.
  intros He Hf. unfold pow_binary.
  rewrite pow_binary_loop_spec by (try apply bit_length_le_iff; lia).
  destruct (exp =? 0); [reflexivity |]. do 2 f_equal. ring.
Qed.

End Baselines.

(** ** Window sequences: lengths and recombination *)

Lemma total_length_app (a b : list window) :
  total_length (a ++ b) = total_length a + total_length b.
Proof.
  unfold total_length, lengths. induction a as [| w a IH]; cbn in *; lia.
Qed.

Lemma total_length_nonneg (ws : list window) :
  Forall (fun w => 0 <= length w) ws -> 0 <= total_length ws.
Proof.
  unfold total_length, lengths. induction 1 as [| w ws Hw _ IH]; cbn in *; lia.
Qed.

Lemma recombine_sum_app (a b : list window) (off : Z) :
  recombine_sum off (a ++ b)
  = recombine_sum off a + recombine_sum (off + total_length a) b.
Proof.
  revert off. induction a as [| w a IH]; intros off; cbn [app recombine_sum].
  - unfold total_length. cbn. now rewrite Z.add_0_r.
  - rewrite IH. unfold total_length, lengths. cbn [map fold_right].
    rewrite (Z.add_assoc off (length w)). ring.
Qed.

Lemma recombine_sum_scale (ws : list window) :
  Forall (fun w => 0 <= length w) ws ->
  forall off, 0 <= off -> recombine_sum off ws = 2 ^ off * recombine_sum 0 ws.
Proof.
  induction 1 as [| w ws Hw _ IH]; intros off Hoff; cbn [recombine_sum].
  - lia.
  - rewrite (IH (off + length w)), (IH (0 + length w)) by lia.
    rewrite !Z.shiftl_mul_pow2, Z.pow_0_r, Z.add_0_l, Z.pow_add_r by lia. ring.
Qed.

Lemma recombine_sum_cons (w : window) (ws : list window) :
  Forall (fun w => 0 <= length w) (w :: ws) ->
  recombine_sum 0 (w :: ws) = value w + 2 ^ length w * recombine_sum 0 ws.
Proof.
  intros H. inversion H as [| ? ? Hw Hws]; subst. cbn [recombine_sum].
  rewrite (recombine_sum_scale ws Hws (0 + length w)) by lia.
  rewrite Z.shiftl_0_r. reflexivity.
Qed.

Lemma recombine_sum_nonneg (ws : list window) :
  Forall (fun w => 0 <= value w) ws -> forall off, 0 <= recombine_sum off ws.
Proof.
  induction 1 as [| w ws Hw _ IH]; intros off; cbn [recombine_sum]; [lia |].
  pose proof (proj2 (Z.shiftl_nonneg (value w) off) Hw). specialize (IH (off + length w)).
  lia.
Qed.

(** Adding a number below [2^k] to a multiple of [2^k] is OR-ing them. *)
Lemma lor_disjoint (a c k : Z) :
  0 <= k -> 0 <= a < 2 ^ k -> Z.lor a (2 ^ k * c) = a + 2 ^ k * c.
Proof.
  intros Hk Ha.
  assert (Hd : Z.land a (2 ^ k * c) = 0).
  { apply Z.bits_inj'. intros n Hn. rewrite Z.land_spec, Z.bits_0.
    destruct (Z.lt_ge_cases n k) as [Hlt | Hge].
    - rewrite (Z.mul_comm (2 ^ k) c), Z.mul_pow2_bits_low by assumption.
      apply andb_false_r.
    - rewrite <- (Z.mod_small a (2 ^ k)) by assumption.
      rewrite Z.mod_pow2_bits_high by lia. reflexivity. }
  rewrite Z.add_nocarry_lxor by assumption. symmetry. now apply Z.lxor_lor.
Qed.

(** On well-formed windows OR-ing and adding recombine to the same number. *)
Lemma recombine_or_sum (ws : list window) :
  Forall window_ok ws ->
  forall off, 0 <= off -> recombine_or off ws = recombine_sum off ws.
Proof.
  induction 1 as [| w ws Hw Hws IH]; intros off Hoff; [reflexivity |].
  cbn [recombine_or recombine_sum]. destruct Hw as [Hl Hv].
  rewrite IH by lia.
  assert (Hlen : Forall (fun w => 0 <= length w) ws).
  { eapply Forall_impl; [| exact Hws]. intros w' [H' _]. exact H'. }
  rewrite (recombine_sum_scale ws Hlen (off + length w)) by lia.
  apply lor_disjoint; [lia |].
  rewrite Z.shiftl_mul_pow2, Z.pow_add_r by lia.
  pose proof (Z.pow_pos_nonneg 2 off). nia.
Qed.

(** Cutting off one more window of [l] bits at offset [p]. *)
Lemma mod_pow2_extend (e p l : Z) :
  0 <= p -> 0 <= l ->
  e mod 2 ^ (p + l) = e mod 2 ^ p + Z.shiftl (Z.land (Z.shiftr e p) (Z.shiftl 1 l - 1)) p.
Proof.
  intros Hp Hl.
  change (Z.shiftl 1 l - 1) with (Z.ones l).
  rewrite Z.land_ones, Z.shiftr_div_pow2, Z.shiftl_mul_pow2 by assumption.
  rewrite Z.pow_add_r by assumption.
  pose proof (Z.pow_pos_nonneg 2 p). pose proof (Z.pow_pos_nonneg 2 l).
  rewrite Z.rem_mul_r by lia. ring.
Qed.

(** ** Printing integers *)

Lemma format_int_short (n : Z) :
  Z.abs n < 10 ^ int_max_str_digits -> format_int n = Ok tt.
Proof.
  intros H. unfold format_int.
  destruct (Z.ltb_spec (Z.abs n) (10 ^ int_max_str_digits)); [reflexivity | lia].
Qed.

Lemma format_int_long (n : Z) :
  10 ^ int_max_str_digits <= Z.abs n -> format_int n = Err ValueError.
Proof.
  intros H. unfold format_int.
  destruct (Z.ltb_spec (Z.abs n) (10 ^ int_max_str_digits)); [lia | reflexivity].
Qed.

Lemma format_int_cases (n : Z) : format_int n = Ok tt \/ format_int n = Err ValueError.
Proof.
  unfold format_int. destruct (Z.abs n <? 10 ^ int_max_str_digits); auto.
Qed.

Lemma str_ints_cases (l : list Z) : str_ints l = Ok tt \/ str_ints l = Err ValueError.
Proof.
  unfold str_ints. induction l as [| n l IH]; cbn [for_each]; [now left |].
  destruct (format_int_cases n) as [-> | ->]; cbn [bind]; [exact IH | now right].
Qed.

Lemma str_ints_short (l : list Z) :
  Forall (fun n => Z.abs n < 10 ^ int_max_str_digits) l -> str_ints l = Ok tt.
Proof.
  unfold str_ints. induction 1 as [| n l Hn _ IH]; cbn [for_each]; [reflexivity |].
  now rewrite format_int_short.
Qed.

Lemma str_ints_In (l : list Z) (y : Z) :
  str_ints l = Ok tt -> In y l -> format_int y = Ok tt.
Proof.
  unfold str_ints. induction l as [| n l IH]; cbn [for_each In]; [tauto |].
  destruct (format_int n) as [[] | e] eqn:E; cbn [bind]; [| discriminate].
  intros Hl [<- | Hy]; [exact E | now apply IH].
Qed.

Lemma str_windows_cases (ws : list window) :
  str_windows ws = Ok tt \/ str_windows ws = Err ValueError.
Proof.
  unfold str_windows. induction ws as [| w ws IH]; cbn [for_each]; [now left |].
  destruct (format_int_cases (value w)) as [-> | ->]; cbn [bind]; [| now right].
  destruct (format_int_cases (length w)) as [-> | ->]; cbn [bind]; [exact IH | now right].
Qed.

Lemma str_windows_short (ws : list window) :
  Forall (fun w => Z.abs (value w) < 10 ^ int_max_str_digits
                   /\ Z.abs (length w) < 10 ^ int_max_str_digits) ws ->
  str_windows ws = Ok tt.
Proof.
  unfold str_windows. induction 1 as [| w ws [Hv Hl] _ IH]; cbn [for_each];
    [reflexivity |].
  rewrite (format_int_short (value w)) by assumption. cbn [bind].
  now rewrite (format_int_short (length w)) by assumption.
Qed.

(** A remainder is shorter than its divisor. *)
Lemma mod_abs_lt (a m : Z) : m <> 0 -> Z.abs (a mod m) < Z.abs m.
Proof.
  intros Hm. destruct (Z.lt_ge_cases 0 m) as [Hpos | Hneg].
  - pose proof (Z.mod_pos_bound a m Hpos). lia.
  - pose proof (Z.mod_neg_bound a m ltac:(lia)). lia.
Qed.

(** ** The driver raises the base to the recombined exponent *)

Lemma skipn_nth_error {A : Type} (l : list A) (k : nat) (a : A) :
  nth_error l k = Some a -> skipn k l = a :: skipn (S k) l.
Proof.
  revert l. induction k as [| k IH]; intros [| b l] H; cbn in *; try discriminate.
  - now inversion H.
  - now apply IH.
Qed.

Lemma map_result_ok {A B : Type} (f : A -> result B) (g : A -> B) (xs : list A) :
  (forall a, f a = Ok (g a)) -> map_result f xs = Ok (map g xs).
Proof.
  intros H. induction xs as [| a xs IH]; [reflexivity |].
  cbn [map_result map]. now rewrite H, IH.
Qed.

Section Driver.

Variables (x m : Z).
Hypothesis m_nonzero : m <> 0.

Lemma precomputed_powers_ok (max_len : Z) :
  0 <= max_len ->
  precomputed_powers x m max_len = Ok (power_table x m max_len).
Proof.
  intros H. unfold precomputed_powers.
  destruct (Z.ltb_spec max_len 0); [lia |].
  apply map_result_ok. intros i. now apply py_mod_ok.
Qed.

(** Every index below [2^max_len] hits the table, at the power it names. *)
Lemma table_lookup (max_len v : Z) :
  0 <= v < 2 ^ max_len ->
  getitem (power_table x m max_len) v = Ok (x ^ v mod m).
Proof.
  intros Hv. apply getitem_nth; [lia |]. unfold power_table.
  rewrite nth_error_map, range_nth_error by assumption. reflexivity.
Qed.

(** Squaring [l] times an accumulator that is already reduced. *)
Lemma square_rounds_range (l y : Z) :
  0 <= l ->
  for_each (range 0 l) (fun _ y => py_mod (y * y) m) (y mod m)
  = Ok ((y ^ (2 ^ l)) mod m).
Proof.
  intros Hl. rewrite square_rounds by assumption. f_equal.
  pose proof (range_length 0 l) as Hlen.
  destruct (range 0 l) as [| a rest] eqn:E.
  - cbn in Hlen. assert (l = 0) by lia. subst l. f_equal. cbn. ring.
  - rewrite Hlen. replace (Z.of_nat (Z.to_nat (l - 0))) with l by lia.
    apply pow_mod_idemp; [assumption |]. apply Z.pow_nonneg. lia.
Qed.

Variables (ws : list window) (max_len : Z).
Hypothesis ws_lengths : Forall (fun w => 0 <= length w) ws.
Hypothesis ws_values : Forall (fun w => 0 <= value w < 2 ^ max_len) ws.

Lemma skipn_lengths (k : nat) : Forall (fun w => 0 <= length w) (skipn k ws).
Proof.
  rewrite <- (firstn_skipn k ws) in ws_lengths.
  now apply Forall_app in ws_lengths.
Qed.

Lemma skipn_values (k : nat) : Forall (fun w => 0 <= value w) (skipn k ws).
Proof.
  rewrite <- (firstn_skipn k ws) in ws_values.
  apply Forall_app in ws_values. destruct ws_values as [_ H].
  eapply Forall_impl; [| exact H]. cbn. intros; lia.
Qed.

(** One window further down: square by its length, multiply by its
    value. *)
Lemma pow_window_body_spec (k : nat) (w : window) :
  nth_error ws k = Some w ->
  pow_window_body m ws (power_table x m max_len) (Z.of_nat k)
                  (x ^ recombine_sum 0 (skipn (S k) ws) mod m)
  = Ok (x ^ recombine_sum 0 (skipn k ws) mod m).
Proof.
  intros Hk. unfold pow_window_body.
  rewrite (getitem_nth ws (Z.of_nat k) w) by (try rewrite Nat2Z.id; lia || assumption).
  cbn [bind].
  assert (Hin : In w ws) by (eapply nth_error_In; eassumption).
  pose proof (proj1 (Forall_forall _ _) ws_lengths w Hin) as Hl.
  pose proof (proj1 (Forall_forall _ _) ws_values w Hin) as Hv.
  cbn beta in Hl, Hv.
  rewrite square_rounds_range by assumption. cbn [bind].
  rewrite (skipn_nth_error ws k w Hk).
  pose proof (skipn_lengths k) as Hls. rewrite (skipn_nth_error ws k w Hk) in Hls.
  rewrite recombine_sum_cons by assumption.
  set (R := recombine_sum 0 (skipn (S k) ws)).
  assert (HR : 0 <= R) by (apply recombine_sum_nonneg, skipn_values).
  pose proof (Z.pow_pos_nonneg 2 (length w) ltac:(lia) Hl) as Hp.
  rewrite <- Z.pow_mul_r by lia.
  destruct (Z.eqb_spec (value w) 0) as [Hz | Hnz]; cbn [negb].
  - rewrite Hz, Z.add_0_l. do 3 f_equal. ring.
  - rewrite table_lookup by assumption. cbn [bind].
    rewrite py_mod_ok by assumption. f_equal.
    rewrite <- Z.mul_mod by assumption.
    rewrite <- Z.pow_add_r by nia. do 2 f_equal. ring.
Qed.

(** Replaying the [k] lowest windows, highest first, from the power of
    the windows above them. *)
Lemma pow_window_replay (k : nat) :
  (k <= List.length ws)%nat ->
  for_each (rev (range 0 (Z.of_nat k))) (pow_window_body m ws (power_table x m max_len))
           (x ^ recombine_sum 0 (skipn k ws) mod m)
  = Ok (x ^ recombine_sum 0 ws mod m).
Proof.
  induction k as [| k IH]; intros Hk.
  - reflexivity.
  - rewrite Nat2Z.inj_succ. unfold Z.succ. rewrite range_snoc, rev_unit by lia.
    cbn [for_each].
    destruct (nth_error ws k) as [w |] eqn:E.
    + rewrite (pow_window_body_spec k w E). cbn [bind]. apply IH. lia.
    + apply nth_error_None in E. lia.
Qed.

(** The driver on the windows [ws] and the table of [2^max_len] powers. *)
Lemma pow_window_spec {Args : Type} (exp : Z)
  (partition_window : Z -> Args -> result partition) (args : Args) :
  partition_window exp args = Ok (ws, max_len) ->
  ws <> [] -> 0 <= max_len ->
  pow_window x exp m partition_window args
  = (u1 <- str_windows ws ;;
     u2 <- format_int max_len ;;
     u3 <- str_ints (power_table x m max_len) ;;
     Ok (x ^ recombine_sum 0 ws mod m)).
Proof.
  intros Hp Hne Hml. unfold pow_window. rewrite Hp. cbn [bind].
  destruct (str_windows ws) as [[] | e]; cbn [bind]; [| reflexivity].
  destruct (format_int max_len) as [[] | e]; cbn [bind]; [| reflexivity].
  rewrite precomputed_powers_ok by assumption. cbn [bind].
  destruct (str_ints (power_table x m max_len)) as [[] | e] eqn:Es; cbn [bind];
    [| reflexivity].
  assert (Hlen : (1 <= List.length ws)%nat).
  { destruct ws; [contradiction | cbn; lia]. }
  set (k := (List.length ws - 1)%nat).
  replace (Z.of_nat (List.length ws) - 1) with (Z.of_nat k) by lia.
  destruct (nth_error ws k) as [top |] eqn:E.
  2:{ apply nth_error_None in E. lia. }
  rewrite (getitem_nth ws (Z.of_nat k) top) by (try rewrite Nat2Z.id; lia || assumption).
  cbn [bind].
  assert (Hin : In top ws) by (eapply nth_error_In; eassumption).
  pose proof (proj1 (Forall_forall _ _) ws_values top Hin) as Hv. cbn beta in Hv.
  rewrite table_lookup by assumption. cbn [bind].
  rewrite (str_ints_In _ _ Es)
    by (unfold power_table; apply in_map_iff; exists (value top);
        split; [reflexivity | now apply range_In]).
  cbn [bind].
  assert (Htop : recombine_sum 0 (skipn k ws) = value top).
  { rewrite (skipn_nth_error ws k top E).
    replace (skipn (S k) ws) with (@nil window)
      by (symmetry; apply skipn_all2; lia).
    cbn [recombine_sum]. rewrite Z.shiftl_0_r. lia. }
  rewrite <- Htop. apply pow_window_replay. lia.
Qed.

(** When every number printed is short enough, the driver returns. *)
Lemma pow_window_short {Args : Type} (exp : Z)
  (partition_window : Z -> Args -> result partition) (args : Args) :
  partition_window exp args = Ok (ws, max_len) ->
  ws <> [] -> 0 <= max_len ->
  Forall (fun w => Z.abs (value w) < 10 ^ int_max_str_digits
                   /\ Z.abs (length w) < 10 ^ int_max_str_digits) ws ->
  max_len < 10 ^ int_max_str_digits ->
  Z.abs m <= 10 ^ int_max_str_digits ->
  pow_window x exp m partition_window args = Ok (x ^ recombine_sum 0 ws mod m).
Proof.
  intros Hp Hne Hml Hws Hmax Hm.
  rewrite (pow_window_spec exp partition_window args Hp Hne Hml).
  rewrite str_windows_short by assumption. cbn [bind].
  rewrite format_int_short by lia. cbn [bind].
  rewrite str_ints_short; [reflexivity |].
  unfold power_table. apply Forall_forall. intros y Hy.
  apply in_map_iff in Hy. destruct Hy as (i & <- & _).
  pose proof (mod_abs_lt (x ^ i) m m_nonzero). lia.
Qed.

(** Whatever is printed, the driver returns the power or fails on a number
    too long to print, and on nothing else. *)
Lemma pow_window_cases {Args : Type} (exp : Z)
  (partition_window : Z -> Args -> result partition) (args : Args) :
  partition_window exp args = Ok (ws, max_len) ->
  ws <> [] -> 0 <= max_len ->
  pow_window x exp m partition_window args = Ok (x ^ recombine_sum 0 ws mod m)
  \/ pow_window x exp m partition_window args = Err ValueError.
Proof.
  intros Hp Hne Hml.
  rewrite (pow_window_spec exp partition_window args Hp Hne Hml).
  destruct (str_windows_cases ws) as [-> | ->]; cbn [bind]; [| now right].
  destruct (format_int_cases max_len) as [-> | ->]; cbn [bind]; [| now right].
  destruct (str_ints_cases (power_table x m max_len)) as [-> | ->]; cbn [bind];
    [now left | now right].
Qed.

End Driver.

(** ** The windows of equal width *)

Lemma ceil_div_spec (a b : Z) :
  0 < b -> exists n, ceil_div a b = Ok n /\ (n - 1) * b < a <= n * b.
Proof.
  intros Hb. unfold ceil_div. destruct (Z.eqb_spec b 0); [lia |].
  exists (- (- a / b)). split; [reflexivity |].
  pose proof (Z.div_mod (- a) b ltac:(lia)).
  pose proof (Z.mod_pos_bound (- a) b Hb). nia.
Qed.

Section SameWidth.

Variables (exp window_size : Z).
Hypothesis size_pos : 1 <= window_size.

Lemma same_width_prefix (k : nat) :
  total_length (map (same_width_window exp window_size) (range 0 (Z.of_nat k)))
  = Z.of_nat k * window_size
  /\ recombine_sum 0 (map (same_width_window exp window_size) (range 0 (Z.of_nat k)))
     = exp mod 2 ^ (Z.of_nat k * window_size).
Proof.
  induction k as [| k [IHl IHr]].
  - cbn. split; [reflexivity |]. now rewrite Z.mod_1_r.
  - rewrite Nat2Z.inj_succ. unfold Z.succ.
    rewrite range_snoc, map_app by lia. cbn [map].
    rewrite total_length_app, recombine_sum_app, IHl, IHr.
    split.
    + unfold total_length. cbn. lia.
    + cbn [recombine_sum]. unfold same_width_window at 1. cbn [value].
      rewrite Z.add_0_l, Z.add_0_r, Z.land_comm.
      replace ((Z.of_nat k + 1) * window_size)
        with (Z.of_nat k * window_size + window_size) by ring.
      rewrite (mod_pow2_extend exp (Z.of_nat k * window_size) window_size) by nia.
      reflexivity.
Qed.

Lemma same_width_window_ok (i : Z) : window_ok (same_width_window exp window_size i).
Proof.
  unfold window_ok, same_width_window. cbn [value length]. split; [lia |].
  change (Z.shiftl 1 window_size - 1) with (Z.ones window_size).
  rewrite Z.land_comm, Z.land_ones by lia.
  apply Z.mod_pos_bound. apply Z.pow_pos_nonneg; lia.
Qed.

(** What the function returns below the bit length of [exp]. *)
Lemma partition_window_same_width_spec :
  window_size < bit_length exp ->
  exists n : nat,
    partition_window_same_width exp window_size
    = Ok (map (same_width_window exp window_size) (range 0 (Z.of_nat n)), window_size)
    /\ (Z.of_nat n - 1) * window_size < bit_length exp <= Z.of_nat n * window_size.
Proof.
  intros Hlt. unfold partition_window_same_width.
  destruct (Z.geb_spec window_size (bit_length exp)); [lia |].
  destruct (ceil_div_spec (bit_length exp) window_size ltac:(lia)) as (n & -> & Hn).
  cbn [bind]. exists (Z.to_nat n).
  assert (0 <= n) by nia.
  rewrite Z2Nat.id by assumption. split; [reflexivity | assumption].
Qed.

End SameWidth.

(** ** The constant-length nonzero windows *)

(** The zero-word scan stops at the first set bit at or above its start,
    provided some bit [t] at or above the start is set and the bound allows
    the walk up to it. *)
Lemma zero_word_scan_spec (fuel : nat) :
  forall exp p l t,
    0 <= p <= t -> Z.testbit exp t = true -> t - p <= Z.of_nat fuel ->
    exists q,
      zero_word_scan fuel exp p l = Ok (q, l + (q - p))
      /\ p <= q <= t /\ Z.testbit exp q = true
      /\ (forall k, p <= k < q -> Z.testbit exp k = false).
Proof.
  induction fuel as [| fuel IH]; intros exp p l t Hp Ht Hf.
  - assert (t = p) by lia. subst t. exists p. cbn [zero_word_scan].
    rewrite land_bit_eqb, Ht by lia. cbn [negb].
    repeat split; try lia. f_equal. f_equal. lia.
  - cbn [zero_word_scan]. rewrite land_bit_eqb by lia.
    destruct (Z.testbit exp p) eqn:Eb; cbn [negb].
    + exists p. repeat split; try lia; try assumption. f_equal. f_equal. lia.
    + assert (p <> t) by congruence.
      destruct (IH exp (p + 1) (l + 1) t ltac:(lia) Ht ltac:(lia))
        as (q & Hq & Hr & Hb & Hz).
      exists q. repeat split; try lia; try assumption.
      * rewrite Hq. f_equal. f_equal. lia.
      * intros k Hk. destruct (Z.eq_dec k p) as [-> | Hkp]; [assumption |].
        apply Hz. lia.
Qed.

(** The nonzero-word scan makes [nonzero_window_size - length] steps: that
    many iterations suffice, fewer do not. *)
Lemma nonzero_word_scan_spec (fuel : nat) :
  forall d p l, l <= d -> d - l <= Z.of_nat fuel ->
    nonzero_word_scan fuel d p l = Ok (p + (d - l), d).
Proof.
  induction fuel as [| fuel IH]; intros d p l Hl Hf; cbn [nonzero_word_scan].
  - destruct (Z.ltb_spec l d); [lia |]. f_equal. f_equal; lia.
  - destruct (Z.ltb_spec l d).
    + rewrite IH by lia. f_equal. f_equal. lia.
    + f_equal. f_equal; lia.
Qed.

Lemma nonzero_word_scan_short (fuel : nat) :
  forall d p l, Z.of_nat fuel < d - l ->
    nonzero_word_scan fuel d p l = Err OutOfFuel.
Proof.
  induction fuel as [| fuel IH]; intros d p l Hf; cbn [nonzero_word_scan].
  - destruct (Z.ltb_spec l d); [reflexivity | lia].
  - destruct (Z.ltb_spec l d); [| lia]. apply IH. lia.
Qed.

(** When a stretch of bits is clear, cutting below it or above it is the
    same. *)
Lemma mod_pow2_clear (e p q : Z) :
  0 <= p <= q -> (forall k, p <= k < q -> Z.testbit e k = false) ->
  e mod 2 ^ q = e mod 2 ^ p.
Proof.
  intros Hpq Hz. apply Z.bits_inj'. intros k Hk.
  rewrite !Z.testbit_mod_pow2 by lia.
  destruct (Z.ltb_spec k q), (Z.ltb_spec k p); cbn [andb]; try reflexivity; try lia.
  apply Hz. lia.
Qed.

Lemma snoc_inj {A : Type} (l l' : list A) (a a' : A) :
  l ++ [a] = l' ++ [a'] -> l = l' /\ a = a'.
Proof.
  intros H. apply app_inj_tail in H. exact H.
Qed.

Lemma no_adjacent_zero_snoc (ws : list window) (w : window) :
  no_adjacent_zero ws ->
  (forall ws' a, ws = ws' ++ [a] -> ~ (value a = 0 /\ value w = 0)) ->
  no_adjacent_zero (ws ++ [w]).
Proof.
  induction ws as [| a [| b rest] IH]; intros Hn Hlast.
  - exact I.
  - cbn. split; [| exact I]. apply (Hlast [] a). reflexivity.
  - destruct Hn as [Hab Hrest]. change ((a :: b :: rest) ++ [w])
      with (a :: (b :: rest) ++ [w]).
    cbn [no_adjacent_zero app]. split; [exact Hab |].
    apply IH; [exact Hrest |].
    intros ws' c E. apply (Hlast (a :: ws') c). cbn. now rewrite E.
Qed.

Lemma clnw_inv_init (exp d : Z) :
  1 <= d ->
  clnw_inv exp d {| window_partitions := []; max_length := 0; position := 0 |}.
Proof.
  intros Hd. pose proof (bit_length_nonneg exp).
  constructor; cbn [window_partitions max_length position].
  - lia.
  - reflexivity.
  - cbn. now rewrite Z.mod_1_r.
  - constructor.
  - split; [lia | constructor].
  - exact I.
  - intros ws' a E. destruct ws'; discriminate.
  - reflexivity.
Qed.

Section CLNW.

Variables (exp d : Z) (inner : nat).
Hypothesis exp_pos : 0 < exp.
Hypothesis d_range : 1 <= d <= bit_length exp.
Hypothesis inner_enough : bit_length exp <= Z.of_nat inner.

(** The nonzero word read at a set bit [p]. *)
Lemma nonzero_word_value (p : Z) :
  0 <= p -> Z.testbit exp p = true ->
  Z.odd (Z.land (Z.shiftr exp p) (Z.shiftl 1 d - 1)) = true
  /\ 0 < Z.land (Z.shiftr exp p) (Z.shiftl 1 d - 1) < 2 ^ d.
Proof.
  intros Hp Hb.
  change (Z.shiftl 1 d - 1) with (Z.ones d).
  assert (Hodd : Z.odd (Z.land (Z.shiftr exp p) (Z.ones d)) = true).
  { rewrite <- Z.bit0_odd, Z.land_spec, Z.shiftr_spec, Z.testbit_ones by lia.
    cbn [Z.add]. rewrite Hb. cbn [andb Z.leb Z.compare].
    destruct (Z.ltb_spec 0 d); [reflexivity | lia]. }
  split; [exact Hodd |].
  rewrite Z.land_ones in * by lia.
  pose proof (Z.mod_pos_bound (Z.shiftr exp p) (2 ^ d)
                ltac:(apply Z.pow_pos_nonneg; lia)) as Hbd.
  destruct (Z.eq_dec (Z.shiftr exp p mod 2 ^ d) 0) as [E | E].
  - rewrite E in Hodd. discriminate.
  - lia.
Qed.

(** One pass through the loop body keeps the invariant and moves the
    position up. *)
Lemma clnw_body_spec (st : clnw_state) :
  clnw_inv exp d st -> position st < bit_length exp ->
  exists st',
    clnw_body inner exp d st = Ok st'
    /\ clnw_inv exp d st' /\ position st < position st'.
Proof.
  intros [Hpos Htot Hrec Hwin [Hm0 Hmax] Hadj Hlast Hne] Hlt.
  unfold clnw_body. rewrite land_bit_eqb by lia.
  destruct (Z.testbit exp (position st)) eqn:Eb; cbn [negb].
  - (* nonzero word *)
    rewrite nonzero_word_scan_spec by lia. cbn [bind].
    replace (position st + (d - 0) - d) with (position st) by lia.
    eexists. split; [reflexivity |]. split; [| cbn [position]; lia].
    pose proof (nonzero_word_value (position st) ltac:(lia) Eb) as [Hodd Hv].
    constructor; cbn [window_partitions max_length position].
    + lia.
    + rewrite total_length_app, Htot. unfold total_length. cbn. lia.
    + rewrite recombine_sum_app, Hrec, Htot. cbn [recombine_sum value].
      replace (position st + (d - 0)) with (position st + d) by lia.
      rewrite (mod_pow2_extend exp (position st) d) by lia.
      rewrite Z.add_0_l. lia.
    + apply Forall_app. split; [exact Hwin |].
      constructor; [right; cbn [value length]; auto | constructor].
    + split; [lia |]. apply Forall_app. split.
      * eapply Forall_impl; [| exact Hmax]. cbn. intros; lia.
      * constructor; [cbn; lia | constructor].
    + apply no_adjacent_zero_snoc; [exact Hadj |].
      intros ws' a _ [_ Hz]. cbn [value] in Hz. lia.
    + intros ws' a E Ha. apply snoc_inj in E. destruct E as [_ <-].
      cbn [value] in Ha. lia.
    + intros E. destruct (window_partitions st); discriminate.
  - (* zero word *)
    destruct (zero_word_scan_spec inner exp (position st) 0 (bit_length exp - 1)
                ltac:(lia) (testbit_top exp exp_pos) ltac:(lia))
      as (q & Hq & Hr & Hb & Hz).
    rewrite Hq. cbn [bind].
    assert (q <> position st) by congruence.
    eexists. split; [reflexivity |]. split; [| cbn [position]; lia].
    constructor; cbn [window_partitions max_length position].
    + lia.
    + rewrite total_length_app, Htot. unfold total_length. cbn. lia.
    + rewrite recombine_sum_app, Hrec. cbn [recombine_sum value].
      rewrite Z.shiftl_0_l, (mod_pow2_clear exp (position st) q) by (lia || assumption).
      lia.
    + apply Forall_app. split; [exact Hwin |].
      constructor; [left; cbn; lia | constructor].
    + split; [lia |]. apply Forall_app. split.
      * eapply Forall_impl; [| exact Hmax]. cbn. intros; lia.
      * constructor; [cbn; lia | constructor].
    + apply no_adjacent_zero_snoc; [exact Hadj |].
      intros ws' a E [Ha _]. specialize (Hlast ws' a E Ha). congruence.
    + intros _ _ _ _. exact Hb.
    + intros E. destruct (window_partitions st); discriminate.
Qed.

(** The loop ends, with the invariant, at or above the bit length. *)
Lemma clnw_loop_spec (fuel : nat) :
  forall st,
    clnw_inv exp d st -> bit_length exp - position st <= Z.of_nat fuel ->
    exists st',
      clnw_loop fuel inner exp d st = Ok st'
      /\ clnw_inv exp d st' /\ bit_length exp <= position st'.
Proof.
  induction fuel as [| fuel IH]; intros st Hinv Hf; cbn [clnw_loop].
  - destruct (Z.ltb_spec (position st) (bit_length exp)); [lia |].
    exists st. auto.
  - destruct (Z.ltb_spec (position st) (bit_length exp)) as [Hlt | Hge].
    + destruct (clnw_body_spec st Hinv Hlt) as (st1 & -> & Hinv1 & Hup).
      cbn [bind]. apply IH; [exact Hinv1 | lia].
    + exists st. auto.
Qed.

End CLNW.

(** What [partition_window_clnw] returns on a positive exponent and a size
    within its bit length, whenever the bound reaches the bit length. *)
Lemma partition_window_clnw_spec (fuel : nat) (exp d : Z) :
  0 < exp -> 1 <= d <= bit_length exp -> bit_length exp <= Z.of_nat fuel ->
  exists st,
    partition_window_clnw fuel exp d = Ok (window_partitions st, max_length st)
    /\ clnw_inv exp d st /\ bit_length exp <= position st.
Proof.
  intros He Hd Hf. unfold partition_window_clnw.
  destruct (Z.gtb_spec d (bit_length exp)); [lia |].
  destruct (clnw_loop_spec exp d fuel He Hd Hf fuel _ (clnw_inv_init exp d ltac:(lia)) ltac:(cbn; lia))
    as (st & -> & Hinv & Hpos).
  cbn [bind]. exists st. auto.
Qed.

(** ** Termination of the scan, for every nonzero integer *)

(** From every position below the bit length some bit at or above it is
    set: the top bit of a positive number, the sign bits of a negative
    one. *)
Lemma set_bit_above (exp : Z) :
  exp <> 0 ->
  exists t, bit_length exp - 1 <= t <= bit_length exp /\ Z.testbit exp t = true.
Proof.
  intros Hne. destruct (Z.lt_ge_cases 0 exp) as [Hpos | Hneg].
  - exists (bit_length exp - 1). split; [lia | now apply testbit_top].
  - exists (bit_length exp). split; [lia |].
    apply (Z.bits_iff_neg exp (bit_length exp)); [| lia].
    unfold bit_length. destruct (Z.eqb_spec exp 0); lia.
Qed.

Section Progress.

Variables (exp d : Z) (inner : nat).
Hypothesis exp_nonzero : exp <> 0.
Hypothesis d_range : 1 <= d <= bit_length exp.
Hypothesis inner_enough : bit_length exp <= Z.of_nat inner.

Lemma clnw_body_progress (st : clnw_state) :
  0 <= position st < bit_length exp ->
  exists st', clnw_body inner exp d st = Ok st' /\ position st < position st'.
Proof.
  intros Hp. unfold clnw_body. rewrite land_bit_eqb by lia.
  destruct (Z.testbit exp (position st)) eqn:Eb; cbn [negb].
  - rewrite nonzero_word_scan_spec by lia. cbn [bind].
    eexists. split; [reflexivity |]. cbn [position]. lia.
  - destruct (set_bit_above exp exp_nonzero) as (t & Ht & Hb).
    destruct (zero_word_scan_spec inner exp (position st) 0 t
                ltac:(lia) Hb ltac:(lia)) as (q & Hq & Hr & Hbq & _).
    rewrite Hq. cbn [bind].
    assert (q <> position st) by congruence.
    eexists. split; [reflexivity |]. cbn [position]. lia.
Qed.

Lemma clnw_loop_terminates (fuel : nat) :
  forall st,
    0 <= position st -> bit_length exp - position st <= Z.of_nat fuel ->
    exists st', clnw_loop fuel inner exp d st = Ok st'.
Proof.
  induction fuel as [| fuel IH]; intros st Hp Hf; cbn [clnw_loop].
  - destruct (Z.ltb_spec (position st) (bit_length exp)); [lia |].
    now exists st.
  - destruct (Z.ltb_spec (position st) (bit_length exp)) as [Hlt | Hge].
    + destruct (clnw_body_progress st ltac:(lia)) as (st1 & -> & Hup).
      cbn [bind]. apply IH; lia.
    + now exists st.
Qed.

End Progress.

Lemma partition_window_clnw_returns (fuel : nat) (exp d : Z) :
  1 <= d <= bit_length exp -> bit_length exp <= Z.of_nat fuel ->
  returns_normally (partition_window_clnw fuel exp d).
Proof.
  intros Hd Hf. unfold partition_window_clnw, returns_normally.
  destruct (Z.gtb_spec d (bit_length exp)); [lia |].
  assert (Hne : exp <> 0) by (intros ->; rewrite bit_length_0 in Hd; lia).
  destruct (clnw_loop_terminates exp d fuel Hne Hd Hf fuel
              {| window_partitions := []; max_length := 0; position := 0 |}
              ltac:(cbn; lia) ltac:(cbn; lia)) as (st & ->).
  cbn [bind]. eexists. reflexivity.
Qed.

(** ** Summaries of the two partitioners under valid parameters *)

Lemma same_width_facts (exp w : Z) :
  1 <= w < bit_length exp ->
  exists ws,
    partition_window_same_width exp w = Ok (ws, w)
    /\ ws <> []
    /\ Forall (fun a => window_ok a /\ length a = w) ws
    /\ total_length ws = Z.of_nat (List.length ws) * w
    /\ (Z.of_nat (List.length ws) - 1) * w < bit_length exp <= Z.of_nat (List.length ws) * w
    /\ (0 <= exp -> recombine_sum 0 ws = exp).
Proof.
  intros Hw.
  destruct (partition_window_same_width_spec exp w ltac:(lia) ltac:(lia)) as (n & Hp & Hn).
  eexists. split; [exact Hp |].
  destruct (same_width_prefix exp w ltac:(lia) n) as [Ht Hr].
  assert (Hlen : forall (f : Z -> window), List.length (map f (range 0 (Z.of_nat n))) = n).
  { intros f. rewrite length_map, range_length. lia. }
  rewrite Hlen.
  split; [| split; [| split; [| split]]].
  - intros E. apply (f_equal (@List.length window)) in E. rewrite Hlen in E. cbn in E. nia.
  - apply Forall_forall. intros a Ha. apply in_map_iff in Ha. destruct Ha as (i & <- & _).
    split; [apply same_width_window_ok; lia | reflexivity].
  - exact Ht.
  - exact Hn.
  - intros He. rewrite Hr. apply Z.mod_small. split; [assumption |].
    eapply Z.lt_le_trans; [apply bit_length_upper; assumption |].
    apply Z.pow_le_mono_r; lia.
Qed.

Lemma clnw_window_ok (d : Z) (w : window) : 1 <= d -> clnw_window d w -> window_ok w.
Proof.
  intros Hd [[Hv Hl] | (Hl & _ & Hv)]; unfold window_ok.
  - rewrite Hv. pose proof (Z.pow_pos_nonneg 2 (length w)). lia.
  - rewrite Hl. lia.
Qed.

(** ** More on the scan: its last word and its maximal length *)

Lemma clnw_top_nonzero (fuel : nat) (exp d : Z) :
  1 <= exp -> 1 <= d <= bit_length exp -> bit_length exp <= Z.of_nat fuel ->
  exists st ws top,
    partition_window_clnw fuel exp d = Ok (window_partitions st, max_length st)
    /\ clnw_inv exp d st
    /\ window_partitions st = ws ++ [top] /\ value top <> 0.
Proof.
  intros He Hd Hf.
  destruct (partition_window_clnw_spec fuel exp d ltac:(lia) Hd Hf)
    as (st & Hp & Hinv & Hend).
  pose proof Hinv as [Hpos Htot Hrec Hwin Hmax Hadj Hlast Hne].
  assert (Hnil : window_partitions st <> []).
  { intros E. specialize (Hne E). pose proof (bit_length_ge_1 exp He). lia. }
  destruct (exists_last Hnil) as (ws & top & E).
  exists st, ws, top. split; [exact Hp |]. split; [exact Hinv |].
  split; [exact E |]. intros Hz. specialize (Hlast ws top E Hz).
  rewrite testbit_above in Hlast by lia. discriminate.
Qed.

Lemma fold_max_snoc (l : list Z) (a : Z) :
  fold_right Z.max 0 (l ++ [a]) = Z.max (fold_right Z.max 0 l) a.
Proof.
  induction l as [| b l IH]; cbn [app fold_right]; [lia |]. rewrite IH. lia.
Qed.

(** Whenever the body of the outer loop returns, it has appended one window
    and raised the maximal length to cover it. *)
Lemma clnw_body_appends (inner : nat) (exp d : Z) (st st' : clnw_state) :
  clnw_body inner exp d st = Ok st' ->
  exists w,
    window_partitions st' = window_partitions st ++ [w]
    /\ max_length st' = Z.max (max_length st) (length w).
Proof.
  unfold clnw_body.
  destruct (Z.land exp (Z.shiftl 1 (position st)) =? 0).
  - destruct (zero_word_scan inner exp (position st) 0) as [[p l] | e];
      cbn [bind]; intros H; inversion H; subst; cbn. eexists; split; reflexivity.
  - destruct (nonzero_word_scan inner d (position st) 0) as [[p l] | e];
      cbn [bind]; intros H; inversion H; subst; cbn. eexists; split; reflexivity.
Qed.

Lemma clnw_loop_max (inner : nat) (exp d : Z) (fuel : nat) :
  forall st st',
    clnw_loop fuel inner exp d st = Ok st' ->
    max_length st = fold_right Z.max 0 (lengths (window_partitions st)) ->
    max_length st' = fold_right Z.max 0 (lengths (window_partitions st')).
Proof.
  induction fuel as [| fuel IH]; intros st st'; cbn [clnw_loop];
    destruct (position st <? bit_length exp); intros H Hm;
    try discriminate; try (inversion H; subst; exact Hm).
  destruct (clnw_body inner exp d st) as [st1 |] eqn:Eb; cbn [bind] in H;
    [| discriminate].
  apply (IH st1 st' H).
  destruct (clnw_body_appends inner exp d st st1 Eb) as (w & -> & ->).
  unfold lengths. rewrite map_app. cbn [map]. rewrite fold_max_snoc.
  unfold lengths in Hm. now rewrite Hm.
Qed.

Lemma bit_length_le_self (n : Z) : 1 <= n -> bit_length n <= n.
Proof.
  intros H. apply bit_length_le_iff; try lia. apply Z.pow_gt_lin_r; lia.
Qed.

Lemma length_le_total (ws : list window) :
  Forall (fun a => 0 <= length a) ws ->
  forall a, In a ws -> length a <= total_length ws.
Proof.
  unfold total_length, lengths.
  induction 1 as [| b ws Hb Hws IH]; intros a Ha; [contradiction |].
  cbn [map fold_right]. pose proof (total_length_nonneg ws Hws) as Ht.
  unfold total_length, lengths in Ht.
  destruct Ha as [<- | Ha]; [lia |]. specialize (IH a Ha). lia.
Qed.

Lemma fold_max_le (l : list Z) (b : Z) :
  0 <= b -> Forall (fun n => n <= b) l -> fold_right Z.max 0 l <= b.
Proof.
  intros Hb. induction 1 as [| n l Hn _ IH]; cbn [fold_right]; lia.
Qed.

Lemma value_le_recombine_sum (ws : list window) :
  Forall window_ok ws ->
  forall off a, 0 <= off -> In a ws -> value a <= recombine_sum off ws.
Proof.
  induction 1 as [| b ws [Hl Hv] Hws IH]; intros off a Hoff Ha; [contradiction |].
  cbn [recombine_sum].
  assert (Hnn : Forall (fun w => 0 <= value w) ws).
  { eapply Forall_impl; [| exact Hws]. intros w [_ H]. lia. }
  pose proof (recombine_sum_nonneg ws Hnn (off + length b)).
  assert (Hs : value b <= Z.shiftl (value b) off).
  { rewrite Z.shiftl_mul_pow2 by assumption.
    pose proof (Z.pow_pos_nonneg 2 off ltac:(lia) Hoff). nia. }
  destruct Ha as [<- | Ha]; [lia |].
  specialize (IH (off + length b) a ltac:(lia) Ha). lia.
Qed.

(** Windows that are well formed, recombine to a short exponent and are no
    longer than it has bits are short enough to print. *)
Lemma windows_short (ws : list window) (exp : Z) :
  Forall window_ok ws -> recombine_sum 0 ws = exp ->
  1 <= exp < 10 ^ int_max_str_digits ->
  Forall (fun a => length a <= bit_length exp) ws ->
  Forall (fun w => Z.abs (value w) < 10 ^ int_max_str_digits
                   /\ Z.abs (length w) < 10 ^ int_max_str_digits) ws.
Proof.
  intros Hok Hrec He Hlen. pose proof (bit_length_le_self exp ltac:(lia)).
  apply Forall_forall. intros a Ha.
  pose proof (proj1 (Forall_forall _ _) Hok a Ha) as [Hl Hv].
  pose proof (proj1 (Forall_forall _ _) Hlen a Ha) as Hb. cbn beta in Hb.
  pose proof (value_le_recombine_sum ws Hok 0 a ltac:(lia) Ha). lia.
Qed.

(** No window of the scan is longer than the exponent has bits, and
    neither is the maximal length reported. *)
Lemma clnw_lengths_bounded (fuel : nat) (exp d : Z) (ws : list window) (ml : Z) :
  1 <= exp -> 1 <= d <= bit_length exp -> bit_length exp <= Z.of_nat fuel ->
  partition_window_clnw fuel exp d = Ok (ws, ml) ->
  Forall (fun a => length a <= bit_length exp) ws /\ 0 <= ml <= bit_length exp.
Proof.
  intros He Hd Hf Hp.
  destruct (clnw_top_nonzero fuel exp d He Hd Hf)
    as (st & low & top & Hp0 & [Hpos Htot _ Hwin [Hm0 _] _ _ _] & E & Hv).
  rewrite Hp0 in Hp. injection Hp as <- <-.
  assert (Hlen : Forall (fun a => length a <= bit_length exp) (window_partitions st)).
  { rewrite E in Htot, Hwin |- *. rewrite total_length_app in Htot.
    apply Forall_app in Hwin. destruct Hwin as [Hlow Htop].
    inversion Htop as [| ? ? Ht _]; subst.
    assert (Hl : length top = d)
      by (destruct Ht as [[Hz _] | (Hl & _)]; [contradiction | exact Hl]).
    unfold total_length at 2 in Htot. cbn in Htot.
    assert (Hnn : Forall (fun a => 0 <= length a) low).
    { eapply Forall_impl; [| exact Hlow]. intros a Ha.
      now destruct (clnw_window_ok d a ltac:(lia) Ha). }
    apply Forall_app. split.
    - apply Forall_forall. intros a Ha.
      pose proof (length_le_total low Hnn a Ha). lia.
    - constructor; [lia | constructor]. }
  split; [exact Hlen |]. split; [exact Hm0 |].
  unfold partition_window_clnw in Hp0.
  destruct (d >? bit_length exp); [discriminate |].
  destruct (clnw_loop fuel fuel exp d _) as [st1 |] eqn:El; cbn [bind] in Hp0;
    [| discriminate].
  injection Hp0 as Hw Hm.
  pose proof (clnw_loop_max fuel exp d fuel _ st1 El eq_refl) as Hmax.
  rewrite Hw, Hm in Hmax. rewrite Hmax. apply fold_max_le.
  - apply bit_length_nonneg.
  - unfold lengths. apply Forall_map. exact Hlen.
Qed.

Lemma clnw_facts (fuel : nat) (exp d : Z) :
  1 <= exp -> 1 <= d <= bit_length exp -> bit_length exp <= Z.of_nat fuel ->
  exists ws ml,
    partition_window_clnw fuel exp d = Ok (ws, ml)
    /\ ws <> []
    /\ Forall (clnw_window d) ws
    /\ Forall (fun a => length a <= ml) ws
    /\ bit_length exp <= total_length ws < bit_length exp + d
    /\ recombine_sum 0 ws = exp
    /\ no_adjacent_zero ws.
Proof.
  intros He Hd Hf.
  destruct (partition_window_clnw_spec fuel exp d ltac:(lia) Hd Hf)
    as (st & Hp & [Hpos Htot Hrec Hwin [Hm0 Hmax] Hadj Hlast Hne] & Hend).
  exists (window_partitions st), (max_length st).
  split; [exact Hp |]. repeat split; try assumption; try lia.
  - intros E. specialize (Hne E). pose proof (bit_length_ge_1 exp He). lia.
  - rewrite Hrec. apply Z.mod_small. split; [lia |].
    eapply Z.lt_le_trans; [apply bit_length_upper; lia |].
    apply Z.pow_le_mono_r; lia.
Qed.

Lemma same_width_driver_facts (exp w : Z) :
  0 <= exp -> 1 <= w < bit_length exp ->
  exists ws,
    partition_window_same_width exp w = Ok (ws, w)
    /\ ws <> []
    /\ Forall window_ok ws
    /\ Forall (fun a => 0 <= length a) ws
    /\ Forall (fun a => 0 <= value a < 2 ^ w) ws
    /\ Forall (fun a => length a <= bit_length exp) ws
    /\ recombine_sum 0 ws = exp.
Proof.
  intros He Hw.
  destruct (same_width_facts exp w Hw) as (ws & Hp & Hne & Hok & _ & _ & Hrec).
  exists ws. split; [exact Hp |]. split; [exact Hne |].
  split; [eapply Forall_impl; [| exact Hok]; cbn; tauto |].
  split; [eapply Forall_impl; [| exact Hok]; intros a [[Hl _] _]; exact Hl |].
  split; [eapply Forall_impl; [| exact Hok]; intros a [[_ Hv] Hl]; now rewrite <- Hl |].
  split; [eapply Forall_impl; [| exact Hok]; intros a [_ Hl]; cbn; lia |].
  now apply Hrec.
Qed.

Lemma pow_window_same_width_correct (x exp m w : Z) :
  0 <= exp < 10 ^ int_max_str_digits ->
  m <> 0 -> Z.abs m <= 10 ^ int_max_str_digits ->
  1 <= w < bit_length exp ->
  pow_window_same_width x exp m w = Ok (x ^ exp mod m).
Proof.
  intros He Hm Hms Hw.
  destruct (same_width_driver_facts exp w ltac:(lia) Hw)
    as (ws & Hp & Hne & Hok & Hls & Hvs & Hlb & Hrec).
  assert (He1 : 1 <= exp).
  { destruct (Z.eq_dec exp 0) as [E | E]; [| lia].
    rewrite E, bit_length_0 in Hw. lia. }
  pose proof (bit_length_le_self exp He1) as Hbl.
  unfold pow_window_same_width.
  rewrite (pow_window_short x m Hm ws w Hls Hvs exp partition_window_same_width w Hp Hne);
    try lia.
  - now rewrite Hrec.
  - apply (windows_short ws exp); (assumption || lia).
Qed.

Lemma pow_window_same_width_cases (x exp m w : Z) :
  0 <= exp -> m <> 0 -> 1 <= w < bit_length exp ->
  pow_window_same_width x exp m w = Ok (x ^ exp mod m)
  \/ pow_window_same_width x exp m w = Err ValueError.
Proof.
  intros He Hm Hw.
  destruct (same_width_driver_facts exp w He Hw)
    as (ws & Hp & Hne & Hok & Hls & Hvs & Hlb & Hrec).
  unfold pow_window_same_width.
  pose proof (pow_window_cases x m Hm ws w Hls Hvs exp partition_window_same_width w
                Hp Hne ltac:(lia)) as H.
  now rewrite Hrec in H.
Qed.

Lemma clnw_values_in_table (d ml : Z) (ws : list window) :
  1 <= d -> Forall (clnw_window d) ws -> Forall (fun a => length a <= ml) ws ->
  Forall (fun a => 0 <= value a < 2 ^ ml) ws.
Proof.
  intros Hd Hwin Hmax. apply Forall_forall. intros a Ha.
  pose proof (proj1 (Forall_forall _ _) Hwin a Ha) as Hs.
  pose proof (proj1 (Forall_forall _ _) Hmax a Ha) as Hl. cbn beta in Hl.
  destruct (clnw_window_ok d a Hd Hs) as [Hl0 Hv].
  pose proof (Z.pow_le_mono_r 2 (length a) ml ltac:(lia) Hl). lia.
Qed.

Lemma clnw_driver_facts (fuel : nat) (exp d : Z) :
  1 <= exp -> 1 <= d <= bit_length exp -> bit_length exp <= Z.of_nat fuel ->
  exists ws ml,
    partition_window_clnw fuel exp d = Ok (ws, ml)
    /\ ws <> []
    /\ Forall window_ok ws
    /\ Forall (fun a => 0 <= length a) ws
    /\ Forall (fun a => 0 <= value a < 2 ^ ml) ws
    /\ Forall (fun a => length a <= bit_length exp) ws
    /\ 0 <= ml <= bit_length exp
    /\ recombine_sum 0 ws = exp.
Proof.
  intros He Hd Hf.
  destruct (clnw_facts fuel exp d He Hd Hf)
    as (ws & ml & Hp & Hne & Hwin & Hmax & _ & Hrec & _).
  destruct (clnw_lengths_bounded fuel exp d ws ml He Hd Hf Hp) as [Hlb Hml].
  assert (Hok : Forall window_ok ws).
  { eapply Forall_impl; [| exact Hwin]. intros a. apply clnw_window_ok. lia. }
  exists ws, ml. split; [exact Hp |]. split; [exact Hne |]. split; [exact Hok |].
  split; [eapply Forall_impl; [| exact Hok]; intros a [Hl _]; exact Hl |].
  split; [apply (clnw_values_in_table d); [lia | assumption | assumption] |].
  auto.
Qed.

Lemma pow_window_clnw_correct (fuel : nat) (x exp m d : Z) :
  1 <= exp < 10 ^ int_max_str_digits ->
  m <> 0 -> Z.abs m <= 10 ^ int_max_str_digits ->
  1 <= d <= bit_length exp -> bit_length exp <= Z.of_nat fuel ->
  pow_window_clnw fuel x exp m d = Ok (x ^ exp mod m).
Proof.
  intros He Hm Hms Hd Hf.
  destruct (clnw_driver_facts fuel exp d ltac:(lia) Hd Hf)
    as (ws & ml & Hp & Hne & Hok & Hls & Hvs & Hlb & Hml & Hrec).
  pose proof (bit_length_le_self exp ltac:(lia)) as Hbl.
  unfold pow_window_clnw.
  rewrite (pow_window_short x m Hm ws ml Hls Hvs exp (partition_window_clnw fuel) d Hp Hne);
    try lia.
  - now rewrite Hrec.
  - apply (windows_short ws exp); (assumption || lia).
Qed.

Lemma pow_window_clnw_cases (fuel : nat) (x exp m d : Z) :
  1 <= exp -> m <> 0 -> 1 <= d <= bit_length exp -> bit_length exp <= Z.of_nat fuel ->
  pow_window_clnw fuel x exp m d = Ok (x ^ exp mod m)
  \/ pow_window_clnw fuel x exp m d = Err ValueError.
Proof.
  intros He Hm Hd Hf.
  destruct (clnw_driver_facts fuel exp d He Hd Hf)
    as (ws & ml & Hp & Hne & Hok & Hls & Hvs & Hlb & Hml & Hrec).
  unfold pow_window_clnw.
  pose proof (pow_window_cases x m Hm ws ml Hls Hvs exp (partition_window_clnw fuel) d
                Hp Hne ltac:(lia)) as H.
  now rewrite Hrec in H.
Qed.

(** ** The specified properties *)

Lemma bit_length_gt_1_nonzero (exp k : Z) : 1 <= k -> k <= bit_length exp -> exp <> 0.
Proof. intros Hk Hb ->. rewrite bit_length_0 in Hb. lia. Qed.

(** X19. Within the digit limit of the interpreter the four computations
    agree: for an exponent below [10^4300], a modulus from 1 to [10^4300]
    and valid window parameters all of them return [x^exp mod m]. *)
Theorem all_algorithms_agree_within_limit (fuel : nat) (x exp m wf wc : Z) :
  0 <= exp < 10 ^ int_max_str_digits -> 1 <= m <= 10 ^ int_max_str_digits ->
  1 <= wf < bit_length exp -> 1 <= wc <= bit_length exp ->
  bit_length exp <= Z.of_nat fuel ->
  pow_step_by_step x exp m = Ok (x ^ exp mod m)
  /\ pow_binary fuel x exp m = Ok (x ^ exp mod m)
  /\ pow_window_same_width x exp m wf = Ok (x ^ exp mod m)
  /\ pow_window_clnw fuel x exp m wc = Ok (x ^ exp mod m).
Proof.
  intros He Hm Hwf Hwc Hf.
  assert (Hne : exp <> 0) by (apply (bit_length_gt_1_nonzero exp wc); lia).
  assert (Hm0 : m <> 0) by lia.
  split; [| split; [| split]].
  - rewrite pow_step_by_step_spec by (assumption || lia).
    destruct (Z.eqb_spec exp 0); [contradiction | reflexivity].
  - rewrite pow_binary_spec by (assumption || lia).
    destruct (Z.eqb_spec exp 0); [contradiction | reflexivity].
  - apply pow_window_same_width_correct; (assumption || lia).
  - apply pow_window_clnw_correct; (assumption || lia).
Qed.

(** Numbers of the size the tests draw are far below the limit. *)
Lemma small_is_short (n : Z) :
  Z.abs n <= 2048 -> Z.abs n < 10 ^ int_max_str_digits.
Proof.
  intros H.
  assert (Hp : 10 ^ 4 <= 10 ^ int_max_str_digits)
    by (apply Z.pow_le_mono_r; unfold int_max_str_digits; lia).
  change (10 ^ 4) with 10000 in Hp. lia.
Qed.

(** Two runs of the windowed computations. *)
Example pow_window_same_width_example :
  pow_window_same_width 7 215 1000 3 = Ok (7 ^ 215 mod 1000).
Proof.
  pose proof (small_is_short 215 ltac:(lia)).
  pose proof (small_is_short 1000 ltac:(lia)).
  apply pow_window_same_width_correct; try change (bit_length 215) with 8; lia.
Qed.

Example pow_window_clnw_example :
  pow_window_clnw 12 7 1918 1000 3 = Ok (7 ^ 1918 mod 1000).
Proof.
  pose proof (small_is_short 1918 ltac:(lia)).
  pose proof (small_is_short 1000 ltac:(lia)).
  apply pow_window_clnw_correct; try change (bit_length 1918) with 11; lia.
Qed.

(** With exponent 5 and window size 1 the table of [pow_window] is
    [[1 % m, x % m]]; when [x % m] is too long to print, both windowed
    computations raise. *)
Lemma windowed_value_error (x m : Z) :
  m <> 0 -> 10 ^ int_max_str_digits <= Z.abs (x mod m) ->
  pow_window_same_width x 5 m 1 = Err ValueError
  /\ pow_window_clnw 3 x 5 m 1 = Err ValueError.
Proof.
  intros Hm Hlong.
  assert (Hs : partition_window_same_width 5 1
               = Ok ([ {| value := 1; length := 1 |}; {| value := 0; length := 1 |};
                       {| value := 1; length := 1 |} ], 1))
    by (vm_compute; reflexivity).
  assert (Hc : partition_window_clnw 3 5 1
               = Ok ([ {| value := 1; length := 1 |}; {| value := 0; length := 1 |};
                       {| value := 1; length := 1 |} ], 1))
    by (vm_compute; reflexivity).
  assert (Hw : str_windows [ {| value := 1; length := 1 |}; {| value := 0; length := 1 |};
                             {| value := 1; length := 1 |} ] = Ok tt).
  { apply str_windows_short. apply Forall_forall.
    intros a [<- | [<- | [<- | []]]]; cbn [value length];
      split; apply small_is_short; cbn; lia. }
  assert (Ht : str_ints (power_table x m 1) = Err ValueError).
  { unfold power_table. change (range 0 (2 ^ 1)) with [0; 1].
    unfold str_ints. cbn [map for_each]. rewrite Z.pow_1_r.
    destruct (format_int_cases (x ^ 0 mod m)) as [-> | ->]; cbn [bind];
      [| reflexivity].
    now rewrite format_int_long. }
  unfold pow_window_same_width, pow_window_clnw, pow_window.
  rewrite Hs, Hc. cbn [bind]. rewrite Hw. cbn [bind].
  rewrite (format_int_short 1) by (apply small_is_short; cbn; lia). cbn [bind].
  rewrite precomputed_powers_ok by (assumption || lia). cbn [bind].
  rewrite Ht. cbn [bind]. split; reflexivity.
Qed.

Lemma all_algorithms_agree_within_limit_witness :
  pow_step_by_step 7 215 1000 = Ok (7 ^ 215 mod 1000)
  /\ pow_binary 8 7 215 1000 = Ok (7 ^ 215 mod 1000)
  /\ pow_window_same_width 7 215 1000 3 = Ok (7 ^ 215 mod 1000)
  /\ pow_window_clnw 8 7 215 1000 3 = Ok (7 ^ 215 mod 1000).
Proof.
  pose proof (small_is_short 215 ltac:(lia)) as H215.
  pose proof (small_is_short 1000 ltac:(lia)) as H1000.
  apply (all_algorithms_agree_within_limit 8 7 215 1000 3 3);
    try change (bit_length 215) with 8; lia.
Defined.

(** C1 does not hold of the code.  At base [10^4500], exponent 5, modulus
    [10^5000 + 1] and window size 1, valid for both partitioners, the two
    baselines return [x^exp mod m], but both windowed computations raise
    [ValueError]: the table entry [x^1 mod m = 10^4500] has 4501 digits and
    the debug message that prints the table cannot be built. *)
Theorem windowed_fail_on_long_numbers :
  1 <= 1 < bit_length 5
  /\ pow_step_by_step (10 ^ 4500) 5 (10 ^ 5000 + 1)
     = Ok ((10 ^ 4500) ^ 5 mod (10 ^ 5000 + 1))
  /\ pow_binary 3 (10 ^ 4500) 5 (10 ^ 5000 + 1)
     = Ok ((10 ^ 4500) ^ 5 mod (10 ^ 5000 + 1))
  /\ pow_window_same_width (10 ^ 4500) 5 (10 ^ 5000 + 1) 1 = Err ValueError
  /\ pow_window_clnw 3 (10 ^ 4500) 5 (10 ^ 5000 + 1) 1 = Err ValueError.
Proof.
  assert (Hx : 0 < 10 ^ 4500)
    by (apply Z.pow_pos_nonneg; [reflexivity | discriminate]).
  assert (Hxm : 10 ^ 4500 <= 10 ^ 5000)
    by (clear; apply Z.pow_le_mono_r; [reflexivity | discriminate]).
  assert (Hlx : 10 ^ int_max_str_digits <= 10 ^ 4500)
    by (clear; apply Z.pow_le_mono_r; [reflexivity | discriminate]).
  revert Hx Hxm Hlx. generalize (10 ^ 4500) as b, (10 ^ 5000) as c.
  intros b c Hb Hbc Hlb.
  assert (Hm : c + 1 <> 0) by lia.
  split; [change (bit_length 5) with 3; lia |].
  split; [rewrite pow_step_by_step_spec by (assumption || lia); reflexivity |].
  split; [rewrite pow_binary_spec by (try change (bit_length 5) with 3; assumption || lia);
          reflexivity |].
  apply windowed_value_error; [exact Hm |].
  rewrite Z.mod_small by lia. lia.
Qed.





(** The corner the amended claim leaves out: with exponent 0 and modulus 1
    the two baselines return 1, while [x^0 mod 1] is 0. *)
Remark baselines_exponent_zero_modulus_one :
  pow_step_by_step 7 0 1 = Ok 1 /\ pow_binary 4 7 0 1 = Ok 1 /\ 7 ^ 0 mod 1 = 0.
Proof. repeat split. Qed.



(** C4, as stated, fails: the lowest window of the documented example,
    [exp = 0b111001010001] with size 3, has value 1 and length 3, and 1 is
    below [2^(3-1)]: the scan runs from the low end, so the set bit that
    opens a nonzero word is its lowest bit, not its highest. *)
Lemma clnw_top_bit_counterexample :
  1 <= 3665 /\ 1 <= 3 <= bit_length 3665
  /\ exists ws ml,
      partition_window_clnw 12 3665 3 = Ok (ws, ml)
      /\ In {| value := 1; length := 3 |} ws
      /\ value {| value := 1; length := 3 |} <> 0
      /\ ~ (2 ^ (length {| value := 1; length := 3 |} - 1)
            <= value {| value := 1; length := 3 |}).
Proof.
  split; [lia |]. split; [change (bit_length 3665) with 12; lia |].
  eexists. eexists. split; [vm_compute; reflexivity |].
  split; [left; reflexivity |]. split; cbn; lia.
Qed.

(** C4, amended. For every exponent of at least 1 and every size [d] from 1
    to its bit length, every window with a nonzero value returned by
    [partition_window_clnw] has its least significant bit set: the value is
    odd, and [1 <= value < 2^length]. *)
Theorem clnw_nonzero_windows_odd (fuel : nat) (exp d : Z) :
  1 <= exp -> 1 <= d <= bit_length exp -> bit_length exp <= Z.of_nat fuel ->
  exists ws ml,
    partition_window_clnw fuel exp d = Ok (ws, ml)
    /\ forall w, In w ws -> value w <> 0 ->
                 Z.testbit (value w) 0 = true /\ 1 <= value w < 2 ^ length w.
Proof.
  intros He Hd Hf.
  destruct (clnw_facts fuel exp d He Hd Hf) as (ws & ml & Hp & _ & Hwin & _).
  exists ws, ml. split; [exact Hp |]. intros w Hin Hnz.
  pose proof (proj1 (Forall_forall _ _) Hwin w Hin) as [[Hz _] | (Hl & Hodd & Hv)].
  - contradiction.
  - rewrite Z.bit0_odd, Hl. split; [exact Hodd | lia].
Qed.

Lemma clnw_nonzero_windows_odd_witness :
  exists ws ml,
    partition_window_clnw 12 3665 3 = Ok (ws, ml)
    /\ forall w, In w ws -> value w <> 0 ->
                 Z.testbit (value w) 0 = true /\ 1 <= value w < 2 ^ length w.
Proof.
  apply (clnw_nonzero_windows_odd 12 3665 3);
    try change (bit_length 3665) with 12; lia.
Defined.



(** C6. For every exponent and every width [w] with
    [1 <= w < bit_length exp], [partition_window_same_width] returns
    [ceil(bit_length exp / w)] windows, least significant first, window [i]
    having value [(exp >> (i*w)) & (2^w - 1)] and length [w], and reports
    [w] as the maximal length; for [0b11010111] and width 3 the values are
    [7; 2; 3]. *)
Theorem same_width_windows (exp w : Z) :
  1 <= w < bit_length exp ->
  (exists ws,
      partition_window_same_width exp w = Ok (ws, w)
      /\ (Z.of_nat (List.length ws) - 1) * w < bit_length exp
         <= Z.of_nat (List.length ws) * w
      /\ forall i, 0 <= i < Z.of_nat (List.length ws) ->
           nth_error ws (Z.to_nat i)
           = Some {| value := Z.land (Z.shiftr exp (i * w)) (2 ^ w - 1); length := w |})
  /\ (exists ws ml,
         partition_window_same_width 215 3 = Ok (ws, ml) /\ values ws = [7; 2; 3]).
Proof.
  intros Hw. split.
  - destruct (partition_window_same_width_spec exp w ltac:(lia) ltac:(lia))
      as (n & Hp & Hn).
    eexists. split; [exact Hp |].
    rewrite length_map, range_length.
    replace (Z.of_nat (Z.to_nat (Z.of_nat n - 0))) with (Z.of_nat n) by lia.
    split; [exact Hn |]. intros i Hi.
    rewrite nth_error_map, range_nth_error by lia. cbn [option_map].
    unfold same_width_window.
    rewrite Z.land_comm, Z.shiftl_mul_pow2, Z.mul_1_l by lia. reflexivity.
  - eexists. eexists. split; vm_compute; reflexivity.
Qed.

Lemma same_width_windows_witness :
  (exists ws,
      partition_window_same_width 215 3 = Ok (ws, 3)
      /\ (Z.of_nat (List.length ws) - 1) * 3 < bit_length 215
         <= Z.of_nat (List.length ws) * 3
      /\ forall i, 0 <= i < Z.of_nat (List.length ws) ->
           nth_error ws (Z.to_nat i)
           = Some {| value := Z.land (Z.shiftr 215 (i * 3)) (2 ^ 3 - 1); length := 3 |})
  /\ (exists ws ml,
         partition_window_same_width 215 3 = Ok (ws, ml) /\ values ws = [7; 2; 3]).
Proof.
  apply (same_width_windows 215 3). change (bit_length 215) with 8. lia.
Defined.

(** C7, as stated, fails: for [exp = 0b11101111110] and size 3 the scan
    returns a zero word, two nonzero words one after the other, a zero word
    and a nonzero word; the two neighbouring nonzero words are neither the
    first nor the last window.  After a nonzero word the scan opens another
    one whenever the next bit is set. *)
Lemma clnw_alternation_counterexample :
  1 <= 1918 /\ 1 <= 3 <= bit_length 1918
  /\ partition_window_clnw 11 1918 3
     = Ok ([ {| value := 0; length := 1 |}; {| value := 7; length := 3 |};
             {| value := 7; length := 3 |}; {| value := 0; length := 1 |};
             {| value := 7; length := 3 |} ], 3)
  /\ ~ no_adjacent_nonzero
         (interior [ {| value := 0; length := 1 |}; {| value := 7; length := 3 |};
                     {| value := 7; length := 3 |}; {| value := 0; length := 1 |};
                     {| value := 7; length := 3 |} ]).
Proof.
  split; [lia |]. split; [change (bit_length 1918) with 11; lia |].
  split; [vm_compute; reflexivity |].
  cbn. intros [H _]. apply H. split; discriminate.
Qed.

(** C7, amended. In every window sequence returned by
    [partition_window_clnw] for an exponent of at least 1 and a size [d]
    from 1 to its bit length, every window with a nonzero value has length
    exactly [d], every window with value 0 has a positive length, and no
    two neighbours are both zero windows. *)
Theorem clnw_structure (fuel : nat) (exp d : Z) :
  1 <= exp -> 1 <= d <= bit_length exp -> bit_length exp <= Z.of_nat fuel ->
  exists ws ml,
    partition_window_clnw fuel exp d = Ok (ws, ml)
    /\ (forall w, In w ws -> value w <> 0 -> length w = d)
    /\ (forall w, In w ws -> value w = 0 -> 0 < length w)
    /\ no_adjacent_zero ws.
Proof.
  intros He Hd Hf.
  destruct (clnw_facts fuel exp d He Hd Hf)
    as (ws & ml & Hp & _ & Hwin & _ & _ & _ & Hadj).
  exists ws, ml. split; [exact Hp |].
  split; [| split; [| exact Hadj]]; intros w Hin Hv;
    pose proof (proj1 (Forall_forall _ _) Hwin w Hin) as [[Hz Hl] | (Hl & _ & Hnz)];
    lia.
Qed.

Lemma clnw_structure_witness :
  exists ws ml,
    partition_window_clnw 11 1918 3 = Ok (ws, ml)
    /\ (forall w, In w ws -> value w <> 0 -> length w = 3)
    /\ (forall w, In w ws -> value w = 0 -> 0 < length w)
    /\ no_adjacent_zero ws.
Proof.
  apply (clnw_structure 11 1918 3);
    try change (bit_length 1918) with 11; lia.
Defined.

(** C8. For every exponent and every size parameter of at least 1,
    [partition_window_same_width] raises the exception of its parameter
    check exactly when the width is at least the bit length, and
    [partition_window_clnw] exactly when the size exceeds the bit length;
    on all other inputs each returns normally (the scan being given as many
    iterations as the exponent has bits). *)
Theorem partitioners_raise_iff (fuel : nat) (exp w d : Z) :
  1 <= w -> 1 <= d -> bit_length exp <= Z.of_nat fuel ->
  (raises_invalid_parameter (partition_window_same_width exp w)
   <-> w >= bit_length exp)
  /\ (~ w >= bit_length exp -> returns_normally (partition_window_same_width exp w))
  /\ (raises_invalid_parameter (partition_window_clnw fuel exp d)
      <-> d > bit_length exp)
  /\ (~ d > bit_length exp -> returns_normally (partition_window_clnw fuel exp d)).
Proof.
  intros Hw Hd Hf.
  assert (Hsw : ~ w >= bit_length exp ->
                returns_normally (partition_window_same_width exp w)).
  { intros Hlt.
    destruct (partition_window_same_width_spec exp w Hw ltac:(lia)) as (n & Hp & _).
    eexists. exact Hp. }
  assert (Hcl : ~ d > bit_length exp ->
                returns_normally (partition_window_clnw fuel exp d)).
  { intros Hle. apply partition_window_clnw_returns; lia. }
  split; [| split; [exact Hsw | split; [| exact Hcl]]].
  - split.
    + intros [msg Hr]. destruct (Z_ge_dec w (bit_length exp)) as [Hge | Hlt]; [exact Hge |].
      destruct (Hsw Hlt) as [a Ha]. congruence.
    + intros Hge. unfold partition_window_same_width.
      destruct (Z.geb_spec w (bit_length exp)); [| lia]. eexists. reflexivity.
  - split.
    + intros [msg Hr]. destruct (Z_gt_dec d (bit_length exp)) as [Hgt | Hle]; [exact Hgt |].
      destruct (Hcl Hle) as [a Ha]. congruence.
    + intros Hgt. unfold partition_window_clnw.
      destruct (Z.gtb_spec d (bit_length exp)); [| lia]. eexists. reflexivity.
Qed.

Lemma partitioners_raise_iff_witness :
  (raises_invalid_parameter (partition_window_same_width 215 8) <-> 8 >= bit_length 215)
  /\ (~ 8 >= bit_length 215 -> returns_normally (partition_window_same_width 215 8))
  /\ (raises_invalid_parameter (partition_window_clnw 8 215 8) <-> 8 > bit_length 215)
  /\ (~ 8 > bit_length 215 -> returns_normally (partition_window_clnw 8 215 8)).
Proof.
  apply (partitioners_raise_iff 8 215 8 8);
    try change (bit_length 215) with 8; lia.
Defined.



(** C10. [partition_window_clnw] terminates for every exponent of at least
    1 and every size from 1 to its bit length: the zero-word scan started
    at a clear bit below the bit length halts at a set bit, at the latest
    at the most significant one; the nonzero-word scan makes exactly
    [nonzero_window_size] steps; every pass through the body of the outer
    loop moves the position up; and the function returns within as many
    iterations per loop as the exponent has bits. *)
Theorem clnw_terminates (fuel : nat) (exp d : Z) :
  1 <= exp -> 1 <= d <= bit_length exp -> bit_length exp <= Z.of_nat fuel ->
  (forall p, 0 <= p < bit_length exp -> Z.testbit exp p = false ->
     exists q, zero_word_scan fuel exp p 0 = Ok (q, q - p)
               /\ p < q <= bit_length exp - 1 /\ Z.testbit exp q = true)
  /\ Z.testbit exp (bit_length exp - 1) = true
  /\ (forall p, nonzero_word_scan (Z.to_nat d) d p 0 = Ok (p + d, d)
                /\ forall n, (n < Z.to_nat d)%nat ->
                             nonzero_word_scan n d p 0 = Err OutOfFuel)
  /\ (forall st, 0 <= position st < bit_length exp ->
        exists st', clnw_body fuel exp d st = Ok st' /\ position st < position st')
  /\ returns_normally (partition_window_clnw fuel exp d).
Proof.
  intros He Hd Hf.
  assert (Htop : Z.testbit exp (bit_length exp - 1) = true)
    by (apply testbit_top; lia).
  split; [| split; [exact Htop | split; [| split]]].
  - intros p Hp Hb.
    destruct (zero_word_scan_spec fuel exp p 0 (bit_length exp - 1)
                ltac:(lia) Htop ltac:(lia)) as (q & Hq & Hr & Hbq & _).
    assert (q <> p) by congruence.
    exists q. rewrite Hq. split; [f_equal; f_equal; lia |]. split; [lia | exact Hbq].
  - intros p. split.
    + rewrite nonzero_word_scan_spec by lia. f_equal. f_equal. lia.
    + intros n Hn. apply nonzero_word_scan_short. lia.
  - intros st Hp. apply clnw_body_progress; try assumption. lia.
  - apply partition_window_clnw_returns; assumption.
Qed.

Lemma clnw_terminates_witness :
  (forall p, 0 <= p < bit_length 3665 -> Z.testbit 3665 p = false ->
     exists q, zero_word_scan 12 3665 p 0 = Ok (q, q - p)
               /\ p < q <= bit_length 3665 - 1 /\ Z.testbit 3665 q = true)
  /\ Z.testbit 3665 (bit_length 3665 - 1) = true
  /\ (forall p, nonzero_word_scan (Z.to_nat 3) 3 p 0 = Ok (p + 3, 3)
                /\ forall n, (n < Z.to_nat 3)%nat ->
                             nonzero_word_scan n 3 p 0 = Err OutOfFuel)
  /\ (forall st, 0 <= position st < bit_length 3665 ->
        exists st', clnw_body 12 3665 3 st = Ok st' /\ position st < position st')
  /\ returns_normally (partition_window_clnw 12 3665 3).
Proof.
  apply (clnw_terminates 12 3665 3);
    try change (bit_length 3665) with 12; lia.
Defined.

(** ** Further properties of the baselines *)

Lemma range_cons (n : Z) : 1 <= n -> range 0 n = 0 :: range 1 n.
Proof.
  intros Hn. unfold range.
  replace (Z.to_nat (n - 0)) with (S (Z.to_nat (n - 1))) by lia.
  cbn [seq map]. f_equal. rewrite <- seq_shift, map_map.
  apply map_ext. intros k. lia.
Qed.

(** X1. [pow_step_by_step] on every input: an exponent of 0 or below gives
    1 whatever the base and the modulus (the loop body never runs); from
    exponent 1 on a zero modulus is a division by zero, and every other
    modulus, negative ones included, gives [x^exp mod m]. *)
Theorem pow_step_by_step_outcome (x exp m : Z) :
  pow_step_by_step x exp m
  = if exp <=? 0 then Ok 1
    else if m =? 0 then Err ZeroDivisionError
    else Ok (x ^ exp mod m).
Proof.
  destruct (Z.leb_spec exp 0) as [Hle | Hgt].
  - unfold pow_step_by_step. now rewrite range_empty by lia.
  - destruct (Z.eqb_spec m 0) as [-> | Hm].
    + unfold pow_step_by_step. rewrite range_cons by lia. reflexivity.
    + rewrite pow_step_by_step_spec by lia.
      destruct (Z.eqb_spec exp 0); [lia | reflexivity].
Qed.

Lemma pow_binary_loop_short (m : Z) (fuel : nat) :
  m <> 0 ->
  forall b exp y, 2 ^ Z.of_nat fuel <= exp ->
    pow_binary_loop fuel b exp m y = Err OutOfFuel.
Proof.
  intros Hm. induction fuel as [| fuel IH]; intros b exp y Hge.
  - cbn in Hge. cbn [pow_binary_loop].
    destruct (Z.eqb_spec exp 0); [lia | reflexivity].
  - rewrite Nat2Z.inj_succ, Z.pow_succ_r in Hge by lia.
    pose proof (Z.pow_pos_nonneg 2 (Z.of_nat fuel) ltac:(lia) ltac:(lia)) as Hp.
    cbn [pow_binary_loop].
    destruct (Z.eqb_spec exp 0); [lia |]. cbn [negb].
    destruct (Z.eqb_spec (exp mod 2) 0) as [Hev | Hodd]; cbn [negb].
    + cbn [bind]. rewrite py_mod_ok by assumption. cbn [bind].
      apply IH. rewrite Z.shiftr_div_pow2, Z.pow_1_r by lia.
      clear - Hge. Z.div_mod_to_equations. lia.
    + rewrite py_mod_ok by assumption. cbn [bind].
      rewrite py_mod_ok by assumption. cbn [bind].
      apply IH. rewrite Z.shiftr_div_pow2, Z.pow_1_r by lia.
      clear - Hge Hodd. Z.div_mod_to_equations. lia.
Qed.

(** X2. On a positive exponent and a nonzero modulus the loop of
    [pow_binary] makes exactly [bit_length exp] iterations: it returns
    [x^exp mod m] when allowed that many and is still running after any
    smaller number. *)
Theorem pow_binary_iterations (fuel : nat) (x exp m : Z) :
  1 <= exp -> m <> 0 ->
  pow_binary fuel x exp m
  = if bit_length exp <=? Z.of_nat fuel then Ok (x ^ exp mod m) else Err OutOfFuel.
Proof.
  intros He Hm. destruct (Z.leb_spec (bit_length exp) (Z.of_nat fuel)) as [Hle | Hgt].
  - rewrite pow_binary_spec by (assumption || lia).
    destruct (Z.eqb_spec exp 0); [lia | reflexivity].
  - apply pow_binary_loop_short; [assumption |].
    destruct (Z.lt_ge_cases exp (2 ^ Z.of_nat fuel)) as [Hlt | Hge]; [| exact Hge].
    apply bit_length_le_iff in Hlt; lia.
Qed.

Lemma pow_binary_iterations_witness :
  pow_binary 3 7 13 2048 = Err OutOfFuel
  /\ pow_binary 4 7 13 2048 = Ok (7 ^ 13 mod 2048).
Proof.
  split.
  - rewrite (pow_binary_iterations 3 7 13 2048) by lia. reflexivity.
  - rewrite (pow_binary_iterations 4 7 13 2048) by lia. reflexivity.
Defined.

(** X3. On a negative exponent [pow_binary] never returns: shifting a
    negative number right keeps it negative, so the loop test never fails,
    whatever number of iterations is allowed. *)
Theorem pow_binary_negative_diverges (fuel : nat) (x exp m : Z) :
  exp < 0 -> m <> 0 -> pow_binary fuel x exp m = Err OutOfFuel.
Proof.
  intros He Hm. unfold pow_binary. generalize 1 as y. revert x exp He.
  induction fuel as [| fuel IH]; intros b exp He y; cbn [pow_binary_loop];
    (destruct (Z.eqb_spec exp 0); [lia |]); cbn [negb]; [reflexivity |].
  destruct (Z.eqb_spec (exp mod 2) 0) as [Hev | Hodd]; cbn [negb].
  - cbn [bind]. rewrite py_mod_ok by assumption. cbn [bind].
    apply IH. apply Z.shiftr_neg. lia.
  - rewrite py_mod_ok by assumption. cbn [bind].
    rewrite py_mod_ok by assumption. cbn [bind].
    apply IH. apply Z.shiftr_neg. lia.
Qed.

Lemma pow_binary_negative_diverges_witness :
  pow_binary 100 2 (-5) 7 = Err OutOfFuel.
Proof. apply (pow_binary_negative_diverges 100 2 (-5) 7); lia. Defined.

(** X4. With modulus 0 [pow_binary] returns 1 for exponent 0 and raises a
    division by zero in its first iteration for every other exponent. *)
Theorem pow_binary_modulus_zero (fuel : nat) (x exp : Z) :
  pow_binary (S fuel) x exp 0
  = if exp =? 0 then Ok 1 else Err ZeroDivisionError.
Proof.
  unfold pow_binary. cbn [pow_binary_loop].
  destruct (Z.eqb_spec exp 0); cbn [negb]; [reflexivity |].
  destruct (Z.eqb_spec (exp mod 2) 0); reflexivity.
Qed.

(** ** Further properties of the driver and of the windowed computations *)

(** X5. The driver is correct for every partitioner, as long as what it
    prints is short enough: whenever the partitioner returns a non-empty
    sequence of windows of non-negative length whose values are below
    [2^max_length], and the window values, the lengths and the maximal
    length are below [10^4300] and the modulus is at most [10^4300] in
    absolute value, [pow_window] returns the base raised to the
    recombination of the windows, modulo [m]. *)
Theorem pow_window_any_partitioner {Args : Type} (x exp m : Z)
  (partition_window : Z -> Args -> result partition) (args : Args)
  (ws : list window) (ml : Z) :
  m <> 0 -> Z.abs m <= 10 ^ int_max_str_digits ->
  partition_window exp args = Ok (ws, ml) -> ws <> [] ->
  0 <= ml < 10 ^ int_max_str_digits ->
  Forall (fun w => 0 <= length w < 10 ^ int_max_str_digits
                   /\ 0 <= value w < 2 ^ ml
                   /\ value w < 10 ^ int_max_str_digits) ws ->
  pow_window x exp m partition_window args = Ok (x ^ recombine_sum 0 ws mod m).
Proof.
  intros Hm Hms Hp Hne Hml Hws.
  apply (pow_window_short x m Hm ws ml).
  - eapply Forall_impl; [| exact Hws]. cbn beta. tauto.
  - eapply Forall_impl; [| exact Hws]. cbn beta. tauto.
  - exact Hp.
  - exact Hne.
  - apply Hml.
  - eapply Forall_impl; [| exact Hws]. cbn beta. intros a Ha. lia.
  - apply Hml.
  - exact Hms.
Qed.

Lemma pow_window_any_partitioner_witness :
  pow_window 3 21 1000
    (fun (_ : Z) (_ : unit) =>
       Ok ([ {| value := 5; length := 3 |}; {| value := 2; length := 2 |} ], 3)) tt
  = Ok (3 ^ recombine_sum 0 [ {| value := 5; length := 3 |};
                              {| value := 2; length := 2 |} ] mod 1000).
Proof.
  pose proof (small_is_short 1000 ltac:(lia)) as H1000.
  pose proof (small_is_short 5 ltac:(lia)) as H5.
  apply (pow_window_any_partitioner 3 21 1000 _ tt _ 3);
    [lia | lia | reflexivity | discriminate | lia |].
  apply Forall_forall. intros a [<- | [<- | []]]; cbn [value length]; lia.
Defined.

Lemma precomputed_powers_modulus_zero (x ml : Z) :
  0 <= ml -> precomputed_powers x 0 ml = Err ZeroDivisionError.
Proof.
  intros Hml. unfold precomputed_powers. destruct (Z.ltb_spec ml 0); [lia |].
  pose proof (Z.pow_pos_nonneg 2 ml ltac:(lia) Hml).
  rewrite range_cons by lia. reflexivity.
Qed.

Lemma partition_window_same_width_empty (exp w : Z) :
  w < bit_length exp -> w < 0 -> partition_window_same_width exp w = Ok ([], w).
Proof.
  intros Hlt Hw. unfold partition_window_same_width, ceil_div.
  destruct (Z.geb_spec w (bit_length exp)); [lia |].
  destruct (Z.eqb_spec w 0); [lia |]. cbn [bind].
  rewrite range_empty; [reflexivity |].
  pose proof (bit_length_nonneg exp).
  Z.div_mod_to_equations. nia.
Qed.



Lemma nonzero_word_scan_nonpositive (fuel : nat) (d p : Z) :
  d <= 0 -> nonzero_word_scan fuel d p 0 = Ok (p, 0).
Proof.
  intros Hd. destruct fuel; cbn [nonzero_word_scan];
    (destruct (Z.ltb_spec 0 d); [lia | reflexivity]).
Qed.

(** Whatever its bound, the zero-word scan either is still running or has
    stopped at or below a set bit above its start. *)
Lemma zero_word_scan_below (fuel : nat) :
  forall exp p l t,
    0 <= p <= t -> Z.testbit exp t = true ->
    zero_word_scan fuel exp p l = Err OutOfFuel
    \/ exists q l', zero_word_scan fuel exp p l = Ok (q, l') /\ p <= q <= t.
Proof.
  induction fuel as [| fuel IH]; intros exp p l t Hp Ht; cbn [zero_word_scan];
    rewrite land_bit_eqb by lia;
    (destruct (Z.testbit exp p) eqn:Eb; cbn [negb];
     [right; exists p, l; split; [reflexivity | lia] |]).
  - now left.
  - assert (p <> t) by congruence.
    destruct (IH exp (p + 1) (l + 1) t ltac:(lia) Ht) as [E | (q & l' & E & Hq)].
    + now left.
    + right. exists q, l'. split; [exact E | lia].
Qed.

Lemma clnw_loop_stuck (exp d : Z) (inner fuel : nat) :
  1 <= exp -> d <= 0 ->
  forall st, 0 <= position st < bit_length exp ->
    clnw_loop fuel inner exp d st = Err OutOfFuel.
Proof.
  intros He Hd. induction fuel as [| fuel IH]; intros st Hp; cbn [clnw_loop];
    (destruct (Z.ltb_spec (position st) (bit_length exp)); [| lia]); [reflexivity |].
  unfold clnw_body. rewrite land_bit_eqb by lia.
  destruct (Z.testbit exp (position st)) eqn:Eb; cbn [negb].
  - rewrite nonzero_word_scan_nonpositive by assumption. cbn [bind].
    apply IH. cbn [position]. lia.
  - destruct (zero_word_scan_below inner exp (position st) 0 (bit_length exp - 1)
                ltac:(lia) (testbit_top exp ltac:(lia)))
      as [E | (q & l' & E & Hq)]; rewrite E; cbn [bind]; [reflexivity |].
    apply IH. cbn [position]. lia.
Qed.

(** X7. The size parameter of [partition_window_clnw] is only checked from
    above: with a size of 0 or below and an exponent of at least 1 the
    function never returns, whatever number of iterations is allowed (at a
    set bit the nonzero-word scan does not move, so the position stays below
    the bit length). *)
Theorem partition_window_clnw_nonpositive_size_diverges (fuel : nat) (exp d : Z) :
  1 <= exp -> d <= 0 -> partition_window_clnw fuel exp d = Err OutOfFuel.
Proof.
  intros He Hd. unfold partition_window_clnw.
  pose proof (bit_length_ge_1 exp He).
  destruct (Z.gtb_spec d (bit_length exp)); [lia |].
  rewrite clnw_loop_stuck by (try assumption; cbn [position]; lia).
  reflexivity.
Qed.

Lemma partition_window_clnw_nonpositive_size_diverges_witness :
  partition_window_clnw 1000 3665 0 = Err OutOfFuel.
Proof.
  apply (partition_window_clnw_nonpositive_size_diverges 1000 3665 0); lia.
Defined.

Lemma clnw_loop_done (fuel inner : nat) (exp d : Z) (st : clnw_state) :
  bit_length exp <= position st -> clnw_loop fuel inner exp d st = Ok st.
Proof.
  intros H. destruct fuel; cbn [clnw_loop];
    (destruct (Z.ltb_spec (position st) (bit_length exp)); [lia | reflexivity]).
Qed.

(** X8. [pow_window_clnw] on every non-negative exponent below [10^4300]
    and every modulus of at most [10^4300] in absolute value (so that
    everything printed is short enough), the loops being allowed as many
    iterations as the exponent has bits: a size above the bit length raises
    the exception of the parameter check; a size of 0 or below is an index
    error on exponent 0 (the window list is empty; a division by zero when
    the modulus is 0 too) and never returns on any other exponent; from
    size 1 on a zero modulus is a division by zero and everything else
    gives [x^exp mod m]. *)
Theorem pow_window_clnw_outcome (fuel : nat) (x exp m d : Z) :
  0 <= exp < 10 ^ int_max_str_digits ->
  Z.abs m <= 10 ^ int_max_str_digits ->
  bit_length exp <= Z.of_nat fuel ->
  pow_window_clnw fuel x exp m d
  = if d >? bit_length exp
    then Err (Exception "nonzero_window_size is bigger than exp")
    else if d <=? 0
         then (if exp =? 0
               then (if m =? 0 then Err ZeroDivisionError else Err IndexError)
               else Err OutOfFuel)
         else if m =? 0 then Err ZeroDivisionError
              else Ok (x ^ exp mod m).
Proof.
  intros He Hms Hf. destruct (Z.gtb_spec d (bit_length exp)) as [Hgt | Hle].
  - unfold pow_window_clnw, pow_window, partition_window_clnw.
    destruct (Z.gtb_spec d (bit_length exp)); [reflexivity | lia].
  - destruct (Z.leb_spec d 0) as [Hd | Hd].
    + destruct (Z.eqb_spec exp 0) as [E | Hne].
      * subst exp. unfold pow_window_clnw, pow_window, partition_window_clnw.
        rewrite bit_length_0 in *. destruct (Z.gtb_spec d 0); [lia |].
        rewrite clnw_loop_done by (rewrite bit_length_0; cbn [position]; lia).
        cbn [bind window_partitions max_length].
        change (str_windows []) with (@Ok unit tt). cbn [bind].
        rewrite (format_int_short 0) by (apply small_is_short; cbn; lia).
        cbn [bind].
        destruct (Z.eqb_spec m 0) as [-> | Hm].
        -- rewrite precomputed_powers_modulus_zero by lia. reflexivity.
        -- rewrite precomputed_powers_ok by (assumption || lia). cbn [bind].
           rewrite str_ints_short; [reflexivity |].
           unfold power_table. apply Forall_forall. intros y Hy.
           apply in_map_iff in Hy. destruct Hy as (i & <- & _).
           pose proof (mod_abs_lt (x ^ i) m Hm). lia.
      * unfold pow_window_clnw, pow_window, partition_window_clnw.
        pose proof (bit_length_ge_1 exp ltac:(lia)).
        destruct (Z.gtb_spec d (bit_length exp)); [lia |].
        rewrite clnw_loop_stuck by (cbn [position]; lia). reflexivity.
    + assert (Hne : exp <> 0) by (apply (bit_length_gt_1_nonzero exp d); lia).
      destruct (Z.eqb_spec m 0) as [-> | Hm].
      * destruct (clnw_driver_facts fuel exp d ltac:(lia) ltac:(lia) Hf)
          as (ws & ml & Hp & Hnil & Hok & Hls & Hvs & Hlb & Hml & Hrec).
        pose proof (bit_length_le_self exp ltac:(lia)) as Hbl.
        unfold pow_window_clnw, pow_window. rewrite Hp. cbn [bind].
        rewrite str_windows_short
          by (apply (windows_short ws exp); (assumption || lia)).
        cbn [bind]. rewrite format_int_short by lia. cbn [bind].
        rewrite precomputed_powers_modulus_zero by lia. reflexivity.
      * apply pow_window_clnw_correct; (assumption || lia).
Qed.

Lemma pow_window_clnw_outcome_witness :
  pow_window_clnw 8 7 215 1000 9
  = Err (Exception "nonzero_window_size is bigger than exp")
  /\ pow_window_clnw 8 7 0 1000 0 = Err IndexError
  /\ pow_window_clnw 8 7 215 1000 0 = Err OutOfFuel
  /\ pow_window_clnw 8 7 215 0 3 = Err ZeroDivisionError
  /\ pow_window_clnw 8 (-7) 215 (-1000) 3 = Ok ((-7) ^ 215 mod (-1000)).
Proof.
  pose proof (small_is_short 215 ltac:(lia)) as H215.
  pose proof (small_is_short 1000 ltac:(lia)) as H1000.
  split; [| split; [| split; [| split]]].
  - rewrite (pow_window_clnw_outcome 8 7 215 1000 9)
      by (try change (bit_length 215) with 8; lia). reflexivity.
  - rewrite (pow_window_clnw_outcome 8 7 0 1000 0)
      by (try change (bit_length 0) with 0; lia). reflexivity.
  - rewrite (pow_window_clnw_outcome 8 7 215 1000 0)
      by (try change (bit_length 215) with 8; lia). reflexivity.
  - rewrite (pow_window_clnw_outcome 8 7 215 0 3)
      by (try change (bit_length 215) with 8; lia). reflexivity.
  - rewrite (pow_window_clnw_outcome 8 (-7) 215 (-1000) 3)
      by (try change (bit_length 215) with 8; lia). reflexivity.
Defined.

(** ** Further properties of the partitioners *)

(** X9. The width of [partition_window_same_width] is only checked from
    above: below the bit length a width of 0 is a division by zero and a
    negative width returns an empty window list with that negative width as
    maximal length. *)
Theorem partition_window_same_width_nonpositive (exp w : Z) :
  w < bit_length exp -> w <= 0 ->
  partition_window_same_width exp w
  = if w =? 0 then Err ZeroDivisionError else Ok ([], w).
Proof.
  intros Hlt Hw. unfold partition_window_same_width, ceil_div.
  destruct (Z.geb_spec w (bit_length exp)); [lia |].
  destruct (Z.eqb_spec w 0); [reflexivity |]. cbn [bind].
  rewrite range_empty; [reflexivity |].
  pose proof (bit_length_nonneg exp).
  Z.div_mod_to_equations. nia.
Qed.

Lemma partition_window_same_width_nonpositive_witness :
  partition_window_same_width 215 0 = Err ZeroDivisionError
  /\ partition_window_same_width 215 (-3) = Ok ([], -3).
Proof.
  split.
  - rewrite (partition_window_same_width_nonpositive 215 0)
      by (try change (bit_length 215) with 8; lia). reflexivity.
  - rewrite (partition_window_same_width_nonpositive 215 (-3))
      by (try change (bit_length 215) with 8; lia). reflexivity.
Defined.



(** X11. The lengths of the windows of equal width sum to the bit length of
    the exponent exactly when the width divides the bit length. *)
Theorem same_width_lengths_exact_iff (exp w : Z) :
  1 <= w < bit_length exp ->
  exists ws,
    partition_window_same_width exp w = Ok (ws, w)
    /\ (total_length ws = bit_length exp <-> bit_length exp mod w = 0).
Proof.
  intros Hw.
  destruct (same_width_facts exp w Hw) as (ws & Hp & _ & _ & Ht & Hn & _).
  exists ws. split; [exact Hp |]. rewrite Ht.
  set (n := Z.of_nat (List.length ws)) in *. split.
  - intros E. rewrite <- E. apply Z.mod_mul. lia.
  - intros E. pose proof (Z.div_mod (bit_length exp) w ltac:(lia)) as Hdm.
    rewrite E, Z.add_0_r in Hdm.
    set (q := bit_length exp / w) in *.
    assert (Hq : q = n) by nia. rewrite Hdm, Hq. ring.
Qed.

Lemma same_width_lengths_exact_iff_witness :
  exists ws,
    partition_window_same_width 215 4 = Ok (ws, 4)
    /\ (total_length ws = bit_length 215 <-> bit_length 215 mod 4 = 0).
Proof.
  apply (same_width_lengths_exact_iff 215 4). change (bit_length 215) with 8. lia.
Defined.

Lemma same_width_top_value (exp w : Z) (n : nat) :
  1 <= exp -> 1 <= w ->
  (Z.of_nat n - 1) * w < bit_length exp <= Z.of_nat n * w ->
  value (same_width_window exp w (Z.of_nat n - 1)) <> 0.
Proof.
  intros He Hw Hn E. unfold same_width_window in E. cbn [value] in E.
  set (k := bit_length exp - 1 - (Z.of_nat n - 1) * w).
  pose proof (bit_length_ge_1 exp He).
  assert (Hb : Z.testbit (Z.land (Z.shiftl 1 w - 1)
                                 (Z.shiftr exp ((Z.of_nat n - 1) * w))) k = true).
  { change (Z.shiftl 1 w - 1) with (Z.ones w).
    rewrite Z.land_spec, Z.testbit_ones, Z.shiftr_spec by (unfold k; lia).
    replace (k + (Z.of_nat n - 1) * w) with (bit_length exp - 1) by (unfold k; lia).
    rewrite testbit_top by lia.
    destruct (Z.leb_spec 0 k); [| unfold k in *; lia].
    destruct (Z.ltb_spec k w); [reflexivity | unfold k in *; lia]. }
  rewrite E, Z.bits_0 in Hb. discriminate.
Qed.



(** X13. The maximal length [partition_window_clnw] reports is exactly the
    greatest of the lengths of the windows it returns, and under valid
    parameters it is at least the size of the nonzero windows. *)
Theorem clnw_max_length_exact (fuel : nat) (exp d : Z) :
  1 <= exp -> 1 <= d <= bit_length exp -> bit_length exp <= Z.of_nat fuel ->
  exists ws ml,
    partition_window_clnw fuel exp d = Ok (ws, ml)
    /\ ml = fold_right Z.max 0 (lengths ws) /\ d <= ml.
Proof.
  intros He Hd Hf.
  destruct (clnw_top_nonzero fuel exp d He Hd Hf)
    as (st & ws & top & Hp & [_ _ _ Hwin [_ Hmax] _ _ _] & E & Hv).
  exists (window_partitions st), (max_length st). split; [exact Hp |]. split.
  - unfold partition_window_clnw in Hp.
    destruct (d >? bit_length exp); [discriminate |].
    destruct (clnw_loop fuel fuel exp d _) as [st1 |] eqn:El; cbn [bind] in Hp;
      [| discriminate].
    injection Hp as Hw Hm. rewrite <- Hw, <- Hm.
    apply (clnw_loop_max fuel exp d fuel _ st1 El). reflexivity.
  - rewrite E in Hwin, Hmax.
    apply Forall_app in Hwin. destruct Hwin as [_ Hwt].
    apply Forall_app in Hmax. destruct Hmax as [_ Hmt].
    inversion Hwt as [| ? ? Ht _]; inversion Hmt as [| ? ? Hl _]; subst.
    destruct Ht as [[Hz _] | (Hlen & _)]; [contradiction | lia].
Qed.

Lemma clnw_max_length_exact_witness :
  exists ws ml,
    partition_window_clnw 12 3665 3 = Ok (ws, ml)
    /\ ml = fold_right Z.max 0 (lengths ws) /\ 3 <= ml.
Proof.
  apply (clnw_max_length_exact 12 3665 3);
    try change (bit_length 3665) with 12; lia.
Defined.

Lemma clnw_loop_step (fuel inner : nat) (exp d : Z) (st : clnw_state) :
  position st < bit_length exp ->
  clnw_loop (S fuel) inner exp d st
  = bind (clnw_body inner exp d st) (clnw_loop fuel inner exp d).
Proof.
  intros H. cbn [clnw_loop].
  destruct (Z.ltb_spec (position st) (bit_length exp)); [reflexivity | lia].
Qed.

Lemma bit_length_pow2 (k : Z) : 0 <= k -> bit_length (2 ^ k) = k + 1.
Proof.
  intros Hk. rewrite bit_length_pos by (apply Z.pow_pos_nonneg; lia).
  now rewrite Z.log2_pow2.
Qed.

Lemma clnw_loop_pow2 (fuel inner : nat) (k d : Z) :
  1 <= k -> 1 <= d <= k + 1 -> k + 1 <= Z.of_nat inner ->
  clnw_loop (S (S fuel)) inner (2 ^ k) d
            {| window_partitions := []; max_length := 0; position := 0 |}
  = Ok {| window_partitions :=
            [ {| value := 0; length := k |}; {| value := 1; length := d |} ];
          max_length := Z.max k d;
          position := k + d |}.
Proof.
  intros Hk Hd Hi.
  pose proof (bit_length_pow2 k ltac:(lia)) as Hbl.
  rewrite clnw_loop_step by (cbn [position]; lia).
  (* the zero word below the single set bit *)
  unfold clnw_body at 1. cbn [position window_partitions max_length].
  rewrite land_bit_eqb, Z.pow2_bits_false by lia. cbn [negb].
  destruct (zero_word_scan_spec inner (2 ^ k) 0 0 k ltac:(lia)
              (Z.pow2_bits_true k ltac:(lia)) ltac:(lia))
    as (q & Hq & Hr & Hb & _).
  assert (q = k).
  { destruct (Z.eq_dec q k) as [E | E]; [exact E |].
    rewrite Z.pow2_bits_false in Hb by lia. discriminate. }
  subst q. rewrite Hq. cbn [bind].
  (* the nonzero word at the set bit *)
  rewrite clnw_loop_step by (cbn [position]; lia).
  unfold clnw_body at 1. cbn [position window_partitions max_length].
  rewrite land_bit_eqb, Z.pow2_bits_true by lia. cbn [negb].
  rewrite nonzero_word_scan_spec by lia. cbn [bind].
  rewrite clnw_loop_done by (cbn [position]; lia).
  replace (k + (d - 0) - d) with k by lia.
  assert (Hv : Z.land (Z.shiftr (2 ^ k) k) (Z.shiftl 1 d - 1) = 1).
  { change (Z.shiftl 1 d - 1) with (Z.ones d).
    rewrite Z.land_ones, Z.shiftr_div_pow2 by lia.
    pose proof (Z.pow_pos_nonneg 2 k ltac:(lia) ltac:(lia)).
    rewrite Z.div_same by lia. apply Z.mod_small.
    pose proof (Z.pow_le_mono_r 2 1 d ltac:(lia) ltac:(lia)).
    rewrite Z.pow_1_r in *. lia. }
  rewrite Hv. cbn [app]. f_equal.
  replace (0 + (k - 0)) with k by lia.
  replace (k + (d - 0)) with (k + d) by lia.
  f_equal. lia.
Qed.

(** X14. On a power of two [2^k] the scan of [partition_window_clnw]
    returns one zero word of length [k] and one nonzero word of value 1, and
    reports [max k d] as maximal length; the table [pow_window] then builds
    has [2^(max k d)] entries, at least as many as the exponent itself,
    although the zero word never reads it. *)
Theorem clnw_power_of_two (fuel : nat) (x m k d : Z) :
  1 <= k -> 1 <= d <= k + 1 -> k + 1 <= Z.of_nat fuel -> m <> 0 ->
  partition_window_clnw fuel (2 ^ k) d
  = Ok ([ {| value := 0; length := k |}; {| value := 1; length := d |} ], Z.max k d)
  /\ exists table,
       precomputed_powers x m (Z.max k d) = Ok table
       /\ 2 ^ k <= Z.of_nat (List.length table).
Proof.
  intros Hk Hd Hf Hm. split.
  - unfold partition_window_clnw. rewrite bit_length_pow2 by lia.
    destruct (Z.gtb_spec d (k + 1)); [lia |].
    destruct fuel as [| [| fuel']]; [lia | lia |].
    rewrite clnw_loop_pow2 by (assumption || lia). reflexivity.
  - eexists. split; [apply precomputed_powers_ok; (assumption || lia) |].
    unfold power_table. rewrite length_map, range_length.
    pose proof (Z.pow_le_mono_r 2 k (Z.max k d) ltac:(lia) ltac:(lia)).
    pose proof (Z.pow_pos_nonneg 2 k ltac:(lia) ltac:(lia)). lia.
Qed.

Lemma clnw_power_of_two_witness :
  partition_window_clnw 11 (2 ^ 10) 3
  = Ok ([ {| value := 0; length := 10 |}; {| value := 1; length := 3 |} ], Z.max 10 3)
  /\ exists table,
       precomputed_powers 7 1000 (Z.max 10 3) = Ok table
       /\ 2 ^ 10 <= Z.of_nat (List.length table).
Proof.
  apply (clnw_power_of_two 11 7 1000 10 3); lia.
Defined.

(** ** The baselines against each other, and the randomized tests *)

(** X15. The two baselines agree on every non-negative exponent and every
    modulus: they return the same number, 1 for exponent 0 even when the
    modulus is 1 or 0, and raise the same division by zero when the modulus
    is 0 and the exponent is not. *)
Theorem baselines_agree (fuel : nat) (x exp m : Z) :
  0 <= exp -> bit_length exp <= Z.of_nat fuel ->
  pow_step_by_step x exp m = pow_binary fuel x exp m.
Proof.
  intros He Hf. destruct (Z.eq_dec exp 0) as [-> | Hpos].
  - destruct fuel; reflexivity.
  - pose proof (bit_length_ge_1 exp ltac:(lia)).
    destruct (Z.eqb_spec m 0) as [-> | Hm].
    + destruct fuel as [| fuel']; [lia |].
      unfold pow_step_by_step, pow_binary. rewrite range_cons by lia.
      cbn [pow_binary_loop for_each].
      destruct (Z.eqb_spec exp 0); [lia |]. cbn [negb].
      destruct (Z.eqb_spec (exp mod 2) 0); reflexivity.
    + rewrite pow_step_by_step_spec, pow_binary_spec by assumption.
      reflexivity.
Qed.

Lemma baselines_agree_witness :
  pow_step_by_step 7 0 1 = pow_binary 0 7 0 1
  /\ pow_step_by_step 7 13 0 = pow_binary 4 7 13 0.
Proof.
  split.
  - apply (baselines_agree 0 7 0 1); try change (bit_length 0) with 0; lia.
  - apply (baselines_agree 4 7 13 0); try change (bit_length 13) with 4; lia.
Defined.

Lemma assertEqual_same (r : result Z) (v : Z) :
  r = Ok v -> assertEqual r (Ok v) = Passed.
Proof. intros ->. cbn. now rewrite Z.eqb_refl. Qed.

(** X16. Every round of [test_pow_step_by_step] and of [test_pow_binary]
    passes, whatever [randint] draws from the ranges of the tests (base,
    exponent and modulus from 2 to 2048). *)
Theorem baseline_tests_pass (fuel : nat) (x exp m : Z) :
  randint 2 2048 x -> randint 2 2048 exp -> randint 2 2048 m ->
  bit_length exp <= Z.of_nat fuel ->
  test_pow_step_by_step x exp m = Passed
  /\ test_pow_binary fuel x exp m = Passed.
Proof.
  unfold randint. intros Hx He Hm Hf.
  unfold test_pow_step_by_step, test_pow_binary, expected.
  rewrite py_mod_ok by lia.
  split; apply assertEqual_same.
  - rewrite pow_step_by_step_spec by lia.
    destruct (Z.eqb_spec exp 0); [lia | reflexivity].
  - rewrite pow_binary_spec by lia.
    destruct (Z.eqb_spec exp 0); [lia | reflexivity].
Qed.

Lemma baseline_tests_pass_witness :
  test_pow_step_by_step 2048 2048 2048 = Passed
  /\ test_pow_binary 12 2048 2048 2048 = Passed.
Proof.
  apply (baseline_tests_pass 12 2048 2048 2048); unfold randint;
    try change (bit_length 2048) with 12; lia.
Defined.

(** X17. In [test_pow_window_same_width] and [test_pow_window_clnw] the
    range the window size is drawn from, [2] to [exp.bit_length() - 1], is
    never empty for the exponents drawn (4 to 2048), and every round
    passes whatever is drawn. *)
Theorem window_tests_pass (fuel : nat) (x exp m size : Z) :
  randint 2 2048 x -> randint 4 2048 exp -> randint 2 2048 m ->
  bit_length exp <= Z.of_nat fuel ->
  2 <= bit_length exp - 1
  /\ (randint 2 (bit_length exp - 1) size ->
      test_pow_window_same_width x exp m size = Passed
      /\ test_pow_window_clnw fuel x exp m size = Passed).
Proof.
  unfold randint. intros Hx He Hm Hf.
  assert (Hb : 3 <= bit_length exp).
  { destruct (Z.lt_ge_cases (bit_length exp) 3) as [Hlt | Hge]; [| exact Hge].
    assert (H2 : bit_length exp <= 2) by lia.
    apply bit_length_le_iff in H2; lia. }
  split; [lia |]. intros Hs.
  pose proof (small_is_short exp ltac:(lia)) as Hes.
  pose proof (small_is_short m ltac:(lia)) as Hms.
  unfold test_pow_window_same_width, test_pow_window_clnw, expected.
  rewrite py_mod_ok by lia.
  split; apply assertEqual_same.
  - apply pow_window_same_width_correct; lia.
  - apply pow_window_clnw_correct; lia.
Qed.

Lemma window_tests_pass_witness :
  2 <= bit_length 4 - 1
  /\ test_pow_window_same_width 2048 4 2 2 = Passed
  /\ test_pow_window_clnw 3 2048 4 2 2 = Passed.
Proof.
  destruct (window_tests_pass 3 2048 4 2 2) as [Hr Hp];
    unfold randint; try change (bit_length 4) with 3; try lia.
  split; [exact Hr |]. apply Hp. unfold randint. change (bit_length 4) with 3. lia.
Defined.


